(** * jackpot: a bounded pool of net.Stream connections

    A shallow embedding of [index.js] (the [Manager] prototype) together with
    the properties of its allocation / release engine.

    The pool code runs on one thread; everything that happens between two
    synchronous runs of pool code (a connection emitting a signal, the
    factory calling back, the transport changing a connection's observable
    fields, a [process.nextTick] task) is an [Action] of the environment.
    The pool's own operations are functions on a [World]: the manager object
    ([self]), the objects it points to, and a [trace] of everything the pool
    does to the outside (callbacks invoked, events emitted, transport methods
    requested). *)

From Stdlib Require Import ZArith String List Bool Arith Lia Sorted.
Import ListNotations.
Open Scope Z_scope.

(** ** Data model *)

(** Connections and completion callbacks are JavaScript objects; the pool only
    compares them by identity. *)
Definition ref := nat.
Definition Callback := nat.

(** Errors are identified by their message. *)
Definition Error := string.

Definition no_factory : Error := "Specify a stream#factory"%string.
Definition factory_failed : Error := "The #factory failed to generate a stream"%string.
Definition pool_full : Error := "The connection pool is full"%string.

(** The fields of a connection that [isAvailable] reads.  [None] stands for a
    field that is [undefined]. *)
Record Connection := {
  readyState : string;
  _pendingWriteReqs : option Z;
  _writeQueue : option (list string);
  destroyed : bool
}.

(** A stream factory is a function; the pool looks at its declared number of
    parameters ([generator.length]) only. *)
Record Builder := { arity : nat }.

(** The methods of the transport that the pool requests on a connection. *)
Inductive Method := m_end | m_destroy | m_destroySoon.

(** The signals of a connection that the pool listens to. *)
Inductive Signal := sig_timeout | sig_error | sig_close | sig_end | sig_connect.

(** What the pool does to the outside world. *)
Inductive Effect :=
| Called (fn : Callback) (err : option Error) (connection : option ref)
| Generator_called
| Transport (connection : ref) (m : Method)
| Emitted_error (err : Error)
| Emitted_connection_close (connection : ref)
| Emitted_free (saved remaining : Z)
| Emitted_end
| Emitted_close.

(** The listeners the pool attaches to a connection.  Every call of [listen]
    creates a new [regenerate] closure and every call of [allocate] a new
    [either] closure (which captures the callback [fn]); [k] is the identity
    of the closure. *)
Inductive Listener :=
| regenerate (k : nat)
| either (k : nat) (fn : Callback).

(** [this]: the fields set by the constructor, and of the inherited
    EventEmitter what the pool's control flow depends on: whether an ['error']
    listener is registered ([emit('error')] throws without one), and the
    ['connection:close'] listeners installed by [end], each with the [size]
    variable it captured. *)
Record Manager := {
  limit : Z;
  pool : list ref;
  pending : Z;
  generator : option Builder;
  retries : Z;
  allocations : Z;
  releases : Z;
  on_error : bool;
  ending : list Z
}.

Record World := {
  self : Manager;
  heap : ref -> Connection;
  listeners : list (ref * Listener);
  (** calls of an asynchronous factory whose [generate] callback has not run *)
  requests : list (nat * Callback);
  (** [ticktock] closures queued with [process.nextTick] *)
  ticks : nat;
  (** identity of the next closure *)
  fresh : nat;
  (** [draws n] is the value of the [n]-th [Math.floor(Math.random() * 70)] *)
  draws : nat -> Z;
  drawn : nat;
  trace : list Effect
}.

(** *** Field updates *)

Definition set_pool (m : Manager) (p : list ref) : Manager :=
  {| limit := limit m; pool := p; pending := pending m; generator := generator m;
     retries := retries m; allocations := allocations m; releases := releases m;
     on_error := on_error m; ending := ending m |}.

Definition set_pending (m : Manager) (n : Z) : Manager :=
  {| limit := limit m; pool := pool m; pending := n; generator := generator m;
     retries := retries m; allocations := allocations m; releases := releases m;
     on_error := on_error m; ending := ending m |}.

Definition set_generator (m : Manager) (g : option Builder) : Manager :=
  {| limit := limit m; pool := pool m; pending := pending m; generator := g;
     retries := retries m; allocations := allocations m; releases := releases m;
     on_error := on_error m; ending := ending m |}.

Definition set_allocations (m : Manager) (n : Z) : Manager :=
  {| limit := limit m; pool := pool m; pending := pending m; generator := generator m;
     retries := retries m; allocations := n; releases := releases m;
     on_error := on_error m; ending := ending m |}.

Definition set_releases (m : Manager) (n : Z) : Manager :=
  {| limit := limit m; pool := pool m; pending := pending m; generator := generator m;
     retries := retries m; allocations := allocations m; releases := n;
     on_error := on_error m; ending := ending m |}.

Definition set_on_error (m : Manager) (b : bool) : Manager :=
  {| limit := limit m; pool := pool m; pending := pending m; generator := generator m;
     retries := retries m; allocations := allocations m; releases := releases m;
     on_error := b; ending := ending m |}.

Definition set_ending (m : Manager) (l : list Z) : Manager :=
  {| limit := limit m; pool := pool m; pending := pending m; generator := generator m;
     retries := retries m; allocations := allocations m; releases := releases m;
     on_error := on_error m; ending := l |}.

Definition set_self (w : World) (m : Manager) : World :=
  {| self := m; heap := heap w; listeners := listeners w; requests := requests w;
     ticks := ticks w; fresh := fresh w; draws := draws w; drawn := drawn w;
     trace := trace w |}.

Definition set_heap (w : World) (h : ref -> Connection) : World :=
  {| self := self w; heap := h; listeners := listeners w; requests := requests w;
     ticks := ticks w; fresh := fresh w; draws := draws w; drawn := drawn w;
     trace := trace w |}.

Definition set_listeners (w : World) (l : list (ref * Listener)) : World :=
  {| self := self w; heap := heap w; listeners := l; requests := requests w;
     ticks := ticks w; fresh := fresh w; draws := draws w; drawn := drawn w;
     trace := trace w |}.

Definition set_requests (w : World) (l : list (nat * Callback)) : World :=
  {| self := self w; heap := heap w; listeners := listeners w; requests := l;
     ticks := ticks w; fresh := fresh w; draws := draws w; drawn := drawn w;
     trace := trace w |}.

Definition set_ticks (w : World) (n : nat) : World :=
  {| self := self w; heap := heap w; listeners := listeners w; requests := requests w;
     ticks := n; fresh := fresh w; draws := draws w; drawn := drawn w;
     trace := trace w |}.

Definition set_fresh (w : World) (n : nat) : World :=
  {| self := self w; heap := heap w; listeners := listeners w; requests := requests w;
     ticks := ticks w; fresh := n; draws := draws w; drawn := drawn w;
     trace := trace w |}.

Definition set_drawn (w : World) (n : nat) : World :=
  {| self := self w; heap := heap w; listeners := listeners w; requests := requests w;
     ticks := ticks w; fresh := fresh w; draws := draws w; drawn := n;
     trace := trace w |}.

Definition log (w : World) (e : Effect) : World :=
  {| self := self w; heap := heap w; listeners := listeners w; requests := requests w;
     ticks := ticks w; fresh := fresh w; draws := draws w; drawn := drawn w;
     trace := trace w ++ [e] |}.

(** ** The constructor and [factory] *)

(** [new Manager(limit, builder)]: [+limit || 20] is 20 when [limit] is
    missing or 0. *)
Definition new_Manager (limit : option Z) (builder : option Builder) : Manager :=
  {| limit := match limit with
              | Some n => if n =? 0 then 20 else n
              | None => 20
              end;
     pool := [];
     pending := 0;
     generator := builder;
     retries := 5;
     allocations := 0;
     releases := 0;
     on_error := false;
     ending := [] |}.

Definition factory (w : World) (builder : Builder) : World :=
  set_self w (set_generator (self w) (Some builder)).

(** ** [release] (and its alias [remove]) *)

(** [pool.indexOf(connection)]; [None] stands for -1. *)
Fixpoint indexOf (l : list ref) (connection : ref) : option nat :=
  match l with
  | [] => None
  | x :: l' =>
      if Nat.eqb x connection then Some 0%nat
      else match indexOf l' connection with
           | Some i => Some (S i)
           | None => None
           end
  end.

(** [pool.splice(index, 1)] *)
Fixpoint splice1 (l : list ref) (index : nat) : list ref :=
  match l, index with
  | [], _ => []
  | _ :: l', O => l'
  | x :: l', S i => x :: splice1 l' i
  end.

(** A connection in the pool is an object, so the test [if (connection)] of
    the source holds whenever [indexOf] found it. *)
Definition release (w : World) (connection : ref) (hard : bool) : bool * World :=
  match indexOf (pool (self w)) connection with
  | None => (false, w)
  | Some index =>
      let w := log w (Transport connection (if hard then m_destroy else m_end)) in
      let w := set_self w (set_pool (self w) (splice1 (pool (self w)) index)) in
      let w := set_self w (set_releases (self w) (releases (self w) + 1)) in
      (true, w)
  end.

(** [remove] is called with one argument: [hard] is [undefined]. *)
Definition remove (w : World) (connection : ref) : bool * World :=
  release w connection false.

(** ** [isAvailable] *)

(** [x || 0] on a number that may be [undefined] *)
Definition or_zero (x : option Z) : Z :=
  match x with
  | Some n => n
  | None => 0
  end.

(** The local variables [writable] and [writes] of [isAvailable]. *)
Definition writable (conn : Connection) : bool :=
  (String.eqb (readyState conn) "open" || String.eqb (readyState conn) "writeOnly")%bool.

Definition writes (conn : Connection) : Z :=
  let writePending := or_zero (_pendingWriteReqs conn) in
  let writeQueue := match _writeQueue conn with Some q => q | None => [] end in
  if Z.of_nat (length writeQueue) =? 0 then writePending
  else Z.of_nat (length writeQueue).

Definition isAvailable (w : World) (c : ref) : Z * World :=
  let conn := heap w c in
  if (writable conn && (writes conn =? 0))%bool then (100, w)
  else if (String.eqb (readyState conn) "closed" || destroyed conn)%bool then
    (0, snd (remove w c))
  else if negb (writable conn) then (0, w)
  else if String.eqb (readyState conn) "opening" then (70, w)
  else if writes conn <? 100 then (100 - writes conn, w)
  else (draws w (drawn w), set_drawn w (S (drawn w))).

(** ** [allocate] *)

(** An entry of the [probabilities] array. *)
Record Candidate := { probability : Z; connection : ref }.

(** The outcome of the [while (i--)] loop: it returned from [allocate] with a
    connection that scored 100, or ran to its end, or threw because [pool[i]]
    was [undefined]. *)
Inductive Scan :=
| Found (c : ref) (w : World)
| Queued (probabilities : list Candidate) (w : World)
| Thrown.

Fixpoint scan (w : World) (i : nat) (probabilities : list Candidate) : Scan :=
  match i with
  | O => Queued probabilities w
  | S i =>
      match nth_error (pool (self w)) i with
      | None => Thrown
      | Some c =>
          let (p, w) := isAvailable w c in
          if p =? 100 then Found c w
          else scan w i (probabilities ++ [{| probability := p; connection := c |}])
      end
  end.

(** [probabilities.sort(function (a, b) { return a.probability - b.probability })]:
    ascending by probability; entries of equal probability keep their order. *)
Fixpoint insert (x : Candidate) (l : list Candidate) : list Candidate :=
  match l with
  | [] => [x]
  | y :: l' =>
      if probability x <=? probability y then x :: l else y :: insert x l'
  end.

Fixpoint sort (l : list Candidate) : list Candidate :=
  match l with
  | [] => []
  | x :: l' => insert x (sort l')
  end.

(** [.pop()]: the last element, [None] for [undefined]. *)
Fixpoint pop (l : list Candidate) : option Candidate :=
  match l with
  | [] => None
  | [x] => Some x
  | _ :: l' => pop l'
  end.

(** [listen(connection)]: the connection is an object at both call sites, so
    the guard [if (!connection)] does not fire. *)
Definition listen (w : World) (c : ref) : World :=
  let w := set_listeners w (listeners w ++ [(c, regenerate (fresh w))]) in
  set_fresh w (S (fresh w)).

(** [connection.on('error', either).on('connect', either)] *)
Definition on_either (w : World) (c : ref) (k : nat) (fn : Callback) : World :=
  set_listeners w (listeners w ++ [(c, either k fn)]).

(** [pending++; listen(connection); connection.on(...)] *)
Definition await (w : World) (c : ref) (k : nat) (fn : Callback) : World :=
  let w := set_self w (set_pending (self w) (pending (self w) + 1)) in
  let w := listen w c in
  on_either w c k fn.

(** The tail of [allocate]: the most probable of the connections seen, if its
    probability is at least 60; otherwise the pool is full. *)
Definition semi_valid (w : World) (fn : Callback) (probabilities : list Candidate) : World :=
  match pop (sort probabilities) with
  | Some p =>
      if probability p >=? 60 then log w (Called fn None (Some (connection p)))
      else log w (Called fn (Some pool_full) None)
  | None => log w (Called fn (Some pool_full) None)
  end.

(** Entering [allocate] with a generator: the closure [either] of this call
    comes into being and [metrics.allocations] is incremented. *)
Definition attempt (w : World) : World :=
  let w := set_fresh w (S (fresh w)) in
  set_self w (set_allocations (self w) (allocations (self w) + 1)).

(** [allocate(fn)].  [made] is what the generator returns if this call invokes
    it without a callback. *)
Definition allocate (w : World) (fn : Callback) (made : option ref) : option World :=
  match generator (self w) with
  | None => Some (log w (Called fn (Some no_factory) None))
  | Some builder =>
      let k := fresh w in
      let total := length (pool (self w)) in
      let w := attempt w in
      match scan w total [] with
      | Thrown => None
      | Found c w => Some (log w (Called fn None (Some c)))
      | Queued probabilities w =>
          if Z.of_nat (length (pool (self w))) + pending (self w) <? limit (self w) then
            if Nat.eqb (arity builder) 0 then
              let w := log w Generator_called in
              match made with
              | Some c => Some (await w c k fn)
              | None => Some (semi_valid w fn probabilities)
              end
            else
              let w := log w Generator_called in
              Some (set_requests w (requests w ++ [(k, fn)]))
          else Some (semi_valid w fn probabilities)
      end
  end.

(** The callback [generate] handed to a generator that takes one. *)
Definition generate (w : World) (k : nat) (fn : Callback)
    (err : option Error) (made : option ref) : World :=
  match err with
  | Some e => log w (Called fn (Some e) None)
  | None =>
      match made with
      | None => log w (Called fn (Some factory_failed) None)
      | Some c => await w c k fn
      end
  end.

(** ** Events *)

Definition Listener_eqb (a b : Listener) : bool :=
  match a, b with
  | regenerate k, regenerate k' => Nat.eqb k k'
  | either k _, either k' _ => Nat.eqb k k'
  | _, _ => false
  end.

(** [connection.removeListener(_, l)] for every signal [l] listens to. *)
Definition removeListener (w : World) (c : ref) (l : Listener) : World :=
  set_listeners w
    (filter (fun x => negb (Nat.eqb (fst x) c && Listener_eqb (snd x) l)) (listeners w)).

(** [self.emit('error', err)]: an EventEmitter throws when ['error'] has no
    listener. *)
Definition emit_error (w : World) (err : Error) : option World :=
  if on_error (self w) then Some (log w (Emitted_error err)) else None.

(** The listeners [ending] installed by [end], run over the listener array as
    it was when the event was emitted; [kept] collects those that stay. *)
Fixpoint run_ending (w : World) (kept snapshot : list Z) : World :=
  match snapshot with
  | [] => set_self w (set_ending (self w) kept)
  | size :: rest =>
      let size := size - 1 in
      if size =? 0 then run_ending (log w Emitted_close) kept rest
      else run_ending w (kept ++ [size]) rest
  end.

(** [self.emit('connection:close', connection)] *)
Definition emit_connection_close (w : World) (c : ref) : World :=
  let w := log w (Emitted_connection_close c) in
  run_ending w [] (ending (self w)).

(** The body of a listener of connection [c], called with argument [arg]
    ([None] when the signal carries no argument, or a falsy one). *)
Definition run_listener (w : World) (c : ref) (l : Listener) (arg : option Error)
    : option World :=
  match l with
  | regenerate k =>
      let w := log w (Transport c m_destroySoon) in
      let w := snd (remove w c) in
      let w := removeListener w c (regenerate k) in
      match arg with
      | Some err => emit_error w err
      | None => Some (emit_connection_close w c)
      end
  | either k fn =>
      let w := removeListener w c (either k fn) in
      let w := set_self w (set_pool (self w) (pool (self w) ++ [c])) in
      let w := set_self w (set_pending (self w) (pending (self w) - 1)) in
      Some (log w (Called fn arg (Some c)))
  end.

Definition subscribed (l : Listener) (s : Signal) : bool :=
  match l, s with
  | regenerate _, sig_connect => false
  | regenerate _, _ => true
  | either _ _, sig_error => true
  | either _ _, sig_connect => true
  | either _ _, _ => false
  end.

(** [connection.emit(s, arg)]: the listeners registered for [s] when the signal
    is emitted run in registration order; an exception ends the run. *)
Fixpoint run_listeners (w : World) (c : ref) (snapshot : list Listener)
    (arg : option Error) : option World :=
  match snapshot with
  | [] => Some w
  | l :: rest =>
      match run_listener w c l arg with
      | Some w => run_listeners w c rest arg
      | None => None
      end
  end.

Definition emit (w : World) (c : ref) (s : Signal) (arg : option Error) : option World :=
  let snapshot :=
    map snd (filter (fun x => Nat.eqb (fst x) c && subscribed (snd x) s)%bool (listeners w)) in
  run_listeners w c snapshot arg.

(** ** [free] and [end] *)

Fixpoint free_loop (w : World) (snapshot : list ref) (keep : Z) (hard : bool)
    (saved : Z) : Z * World :=
  match snapshot with
  | [] => (saved, w)
  | c :: rest =>
      let (p, w) := isAvailable w c in
      if (negb (keep =? 0) && (saved <? keep) && (p =? 100))%bool
      then free_loop w rest keep hard (saved + 1)
      else free_loop (snd (release w c hard)) rest keep hard saved
  end.

Definition free (w : World) (keep : option Z) (hard : bool) : World :=
  let keep := or_zero keep in
  let (saved, w) := free_loop w (pool (self w)) keep hard 0 in
  log w (Emitted_free saved (Z.of_nat (length (pool (self w))))).

Definition end_ (w : World) (hard : bool) : World :=
  let size := Z.of_nat (length (pool (self w))) in
  let w := free w (Some 0) true in
  let w := set_ticks w (S (ticks w)) in
  set_self w (set_ending (self w) (ending (self w) ++ [size])).

Definition ticktock (w : World) : World := log w Emitted_end.

(** ** The pool in its environment *)

Inductive Action :=
| A_factory (builder : Builder)
| A_on_error
| A_allocate (fn : Callback) (made : option ref)
| A_generate (k : nat) (err : option Error) (made : option ref)
| A_emit (c : ref) (s : Signal) (arg : option Error)
| A_release (c : ref) (hard : bool)
| A_free (keep : option Z) (hard : bool)
| A_end (hard : bool)
| A_tick
| A_transport (c : ref) (state : Connection).

Fixpoint lookup (k : nat) (l : list (nat * Callback)) : option Callback :=
  match l with
  | [] => None
  | (k', fn) :: l' => if Nat.eqb k k' then Some fn else lookup k l'
  end.

(** One action.  [None]: the action is not possible in [w] (no such factory
    call outstanding, no task queued) or the pool code threw. *)
Definition step (w : World) (a : Action) : option World :=
  match a with
  | A_factory builder => Some (factory w builder)
  | A_on_error => Some (set_self w (set_on_error (self w) true))
  | A_allocate fn made => allocate w fn made
  | A_generate k err made =>
      match lookup k (requests w) with
      | Some fn =>
          let w := set_requests w
                     (filter (fun x => negb (Nat.eqb (fst x) k)) (requests w)) in
          Some (generate w k fn err made)
      | None => None
      end
  | A_emit c s arg => emit w c s arg
  | A_release c hard => Some (snd (release w c hard))
  | A_free keep hard => Some (free w keep hard)
  | A_end hard => Some (end_ w hard)
  | A_tick =>
      match ticks w with
      | O => None
      | S n => Some (ticktock (set_ticks w n))
      end
  | A_transport c state =>
      Some (set_heap w (fun c' => if Nat.eqb c' c then state else heap w c'))
  end.

Fixpoint run (w : World) (actions : list Action) : option World :=
  match actions with
  | [] => Some w
  | a :: rest =>
      match step w a with
      | Some w => run w rest
      | None => None
      end
  end.

(** A world around a freshly constructed manager. *)
Definition boot (limit : option Z) (builder : option Builder)
    (heap : ref -> Connection) (draws : nat -> Z) : World :=
  {| self := new_Manager limit builder; heap := heap; listeners := [];
     requests := []; ticks := 0; fresh := 0; draws := draws; drawn := 0;
     trace := [] |}.

(** ** Vocabulary of the properties *)

(** The pool without the first occurrence of [c]: what [release] leaves. *)
Definition remove1 (c : ref) (l : list ref) : list ref :=
  match indexOf l c with
  | Some i => splice1 l i
  | None => l
  end.

Definition is_transport (e : Effect) : bool :=
  match e with
  | Transport _ _ => true
  | _ => false
  end.

(** [quiet w w']: between [w] and [w'] the pool code only evicted
    connections: it asked the transport to close them, and changed nothing
    but the pool, the [releases] metric and the number of random draws. *)
Record quiet (w w' : World) : Prop := {
  q_limit : limit (self w') = limit (self w);
  q_pending : pending (self w') = pending (self w);
  q_generator : generator (self w') = generator (self w);
  q_allocations : allocations (self w') = allocations (self w);
  q_on_error : on_error (self w') = on_error (self w);
  q_ending : ending (self w') = ending (self w);
  q_heap : heap w' = heap w;
  q_draws : draws w' = draws w;
  q_listeners : listeners w' = listeners w;
  q_requests : requests w' = requests w;
  q_ticks : ticks w' = ticks w;
  q_fresh : fresh w' = fresh w;
  q_pool : (length (pool (self w')) <= length (pool (self w)))%nat;
  q_trace : exists t, trace w' = trace w ++ t /\ forallb is_transport t = true
}.

(** The first test of [isAvailable]: writable and nothing pending. *)
Definition certain (conn : Connection) : bool :=
  (writable conn && (writes conn =? 0))%bool.

(** [Math.random()] lies in [0, 1), so every draw is one of 0 .. 69. *)
Definition fair (draws : nat -> Z) : Prop := forall n, 0 <= draws n < 70.

(** The completions in a trace: the calls of allocation callbacks. *)
Definition is_call (e : Effect) : bool :=
  match e with
  | Called _ _ _ => true
  | _ => false
  end.

Definition calls (t : list Effect) : list Effect := filter is_call t.

(** The order of the comparison function handed to [sort]. *)
Definition by_probability (a b : Candidate) : Prop := probability a <= probability b.

(** The capacity bound of the pool. *)
Definition capacity (w : World) : Prop :=
  Z.of_nat (length (pool (self w))) + pending (self w) <= limit (self w).

(** The number of ['close'] events in a trace. *)
Fixpoint closes (t : list Effect) : nat :=
  match t with
  | [] => 0
  | Emitted_close :: t' => S (closes t')
  | _ :: t' => closes t'
  end.

(** The number of calls of the generator in a trace. *)
Fixpoint generated (t : list Effect) : nat :=
  match t with
  | [] => 0
  | Generator_called :: t' => S (generated t')
  | _ :: t' => generated t'
  end.

(** The number of [ending] listeners whose countdown is still above 0. *)
Fixpoint positives (l : list Z) : nat :=
  match l with
  | [] => 0
  | size :: l' => ((if (0 <? size)%Z then 1 else 0) + positives l')%nat
  end.

(** The ['close'] events emitted so far plus those that can still come. *)
Definition countdown (w : World) : nat :=
  (closes (trace w) + positives (ending (self w)))%nat.

(** [steady w w']: no shutdown was started between [w] and [w']. *)
Definition steady (w w' : World) : Prop :=
  countdown w' = countdown w /\
  (positives (ending (self w')) <= positives (ending (self w)))%nat.

(** The actions that put no connection into the pool: everything but an
    allocation, a reply of the factory, and the [connect] and [error] signals
    that a connection being created answers with. *)
Definition draining (a : Action) : bool :=
  match a with
  | A_allocate _ _ => false
  | A_generate _ _ _ => false
  | A_emit _ sig_error _ => false
  | A_emit _ sig_connect _ => false
  | _ => true
  end.

Definition is_regenerate (l : Listener) : bool :=
  match l with
  | regenerate _ => true
  | either _ _ => false
  end.

Definition is_end (a : Action) : bool :=
  match a with
  | A_end _ => true
  | _ => false
  end.

Definition is_generate (a : Action) : bool :=
  match a with
  | A_generate _ _ _ => true
  | _ => false
  end.

(** Every connection occurs in [l] at most as often as in [snapshot]. *)
Definition fits (l snapshot : list ref) : Prop :=
  forall x, (count_occ Nat.eq_dec l x <= count_occ Nat.eq_dec snapshot x)%nat.

(** The value of [isAvailable] for a connection in state [conn], when [draw]
    is what the random draw gives should the last branch be reached. *)
Definition grade (conn : Connection) (draw : Z) : Z :=
  if (writable conn && (writes conn =? 0))%bool then 100
  else if (String.eqb (readyState conn) "closed" || destroyed conn)%bool then 0
  else if negb (writable conn) then 0
  else if String.eqb (readyState conn) "opening" then 70
  else if writes conn <? 100 then 100 - writes conn
  else draw.

(** ** Example worlds *)

Definition stream (state : string) (queued : Z) (dead : bool) : Connection :=
  {| readyState := state; _pendingWriteReqs := Some queued; _writeQueue := None;
     destroyed := dead |}.

(** Connections 1 and 2 are open and idle, 3 is open with 30 writes queued,
    4 is closed, 5 is still opening, 6 reports open although it was destroyed,
    7 is open with 50 writes queued; every other connection is open and idle. *)
Definition sockets (c : ref) : Connection :=
  match c with
  | 3%nat => stream "open" 30 false
  | 4%nat => stream "closed" 0 false
  | 5%nat => stream "opening" 0 false
  | 6%nat => stream "open" 0 true
  | 7%nat => stream "open" 50 false
  | _ => stream "open" 0 false
  end.

Definition sync_factory : Builder := {| arity := 0 |}.
Definition async_factory : Builder := {| arity := 1 |}.

(** The world after [actions], or [w] itself if they cannot all happen. *)
Definition after (w : World) (actions : list Action) : World :=
  match run w actions with
  | Some w' => w'
  | None => w
  end.

(** A manager without a factory. *)
Definition unconfigured : World := boot None None sockets (fun _ => 0).

(** A pool of the connections 1, 2, 3 and 4, in this order. *)
Definition warm : World :=
  after (boot None (Some sync_factory) sockets (fun _ => 0))
    [A_on_error;
     A_allocate 11%nat (Some 1%nat); A_allocate 12%nat (Some 2%nat);
     A_allocate 13%nat (Some 3%nat); A_allocate 14%nat (Some 4%nat);
     A_emit 1%nat sig_connect None; A_emit 2%nat sig_connect None;
     A_emit 3%nat sig_connect None; A_emit 4%nat sig_connect None].

(** A pool that holds connection 6 only. *)
Definition haunted : World :=
  after (boot None (Some sync_factory) sockets (fun _ => 0))
    [A_allocate 16%nat (Some 6%nat); A_emit 6%nat sig_connect None].

(** A pool of limit 1 that holds connection 3. *)
Definition crowded : World :=
  after (boot (Some 1) (Some sync_factory) sockets (fun _ => 0))
    [A_allocate 13%nat (Some 3%nat); A_emit 3%nat sig_connect None].

(** ** Vocabulary of the further properties *)

(** A connection that [isAvailable] evicts: it fails the first test and is
    closed or destroyed. *)
Definition doomed (conn : Connection) : bool :=
  (negb (certain conn) &&
   (String.eqb (readyState conn) "closed" || destroyed conn))%bool.

(** The connections the manager has taken charge of: those in the pool, those
    being created, and those it released. *)
Definition census (w : World) : Z :=
  Z.of_nat (length (pool (self w))) + pending (self w) + releases (self w).

(** [kept_books w w']: between [w] and [w'] no connection was taken charge
    of and no allocation was counted. *)
Definition kept_books (w w' : World) : Prop :=
  census w' = census w /\
  allocations (self w') = allocations (self w) /\
  releases (self w) <= releases (self w') /\
  generator (self w') = generator (self w).

(** What [free(0, hard)] asks of the transport for a connection: [end()] if
    scoring evicts it, otherwise [destroy()] or [end()] as [hard] says. *)
Definition farewell (w : World) (hard : bool) (c : ref) : Effect :=
  Transport c (if doomed (heap w c) then m_end
               else if hard then m_destroy else m_end).

Definition is_allocate (a : Action) : bool :=
  match a with
  | A_allocate _ _ => true
  | _ => false
  end.

(** The signals that end a connection without an error of their own. *)
Definition terminal (s : Signal) : bool :=
  match s with
  | sig_timeout => true
  | sig_close => true
  | sig_end => true
  | _ => false
  end.

(** The identities of the [either] closures among listeners. *)
Fixpoint either_ids (l : list Listener) : list nat :=
  match l with
  | [] => []
  | either k _ :: l' => k :: either_ids l'
  | regenerate _ :: l' => either_ids l'
  end.

Definition eithers (l : list (ref * Listener)) : list nat :=
  either_ids (map snd l).

(** The closures that can still complete an allocation, the attached
    [either] listeners and the outstanding calls of the factory, are distinct
    and older than the next closure; and [pending] is the number of attached
    [either] listeners. *)
Record settled (w : World) : Prop := {
  s_listeners : NoDup (eithers (listeners w));
  s_requests : NoDup (map fst (requests w));
  s_apart : forall k, In k (eithers (listeners w)) -> ~ In k (map fst (requests w));
  s_old_listeners : forall k, In k (eithers (listeners w)) -> (k < fresh w)%nat;
  s_old_requests : forall k, In k (map fst (requests w)) -> (k < fresh w)%nat;
  s_pending : pending (self w) = Z.of_nat (length (eithers (listeners w)))
}.

(** The listeners of [c] in [l] that are not among [gone]. *)
Definition detach (c : ref) (gone : list Listener) (l : list (ref * Listener))
    : list (ref * Listener) :=
  filter (fun x => negb (Nat.eqb (fst x) c && existsb (Listener_eqb (snd x)) gone)) l.

(** A pool of limit 2 that holds connection 3, which is busy. *)
Definition roomy : World :=
  after (boot (Some 2) (Some sync_factory) sockets (fun _ => 0))
    [A_on_error; A_allocate 13%nat (Some 3%nat); A_emit 3%nat sig_connect None].

(** A pool of limit 2 that holds the connections 3 and 7, both busy. *)
Definition contended : World :=
  after (boot (Some 2) (Some sync_factory) sockets (fun _ => 0))
    [A_allocate 13%nat (Some 3%nat); A_allocate 17%nat (Some 7%nat);
     A_emit 3%nat sig_connect None; A_emit 7%nat sig_connect None].


(** ** Lists *)

Lemma remove1_cons x c l :
  remove1 c (x :: l) = if Nat.eqb x c then l else x :: remove1 c l.
Proof.
  unfold remove1; simpl.
  destruct (Nat.eqb x c); [reflexivity|].
  destruct (indexOf l c); reflexivity.
Qed.

Lemma indexOf_None l c : indexOf l c = None <-> ~ In c l.
Proof.
  induction l as [|x l IH]; simpl.
  - tauto.
  - destruct (Nat.eqb_spec x c) as [->|Hne].
    + split; [discriminate | intros H; exfalso; apply H; now left].
    + destruct (indexOf l c).
      * split; [discriminate|]. intros H. exfalso. apply H. right.
        destruct (in_dec Nat.eq_dec c l) as [Hi|Hn]; [exact Hi|].
        apply IH in Hn. discriminate.
      * split; [|reflexivity]. intros _ [Hx|Hi]; [congruence|].
        now apply IH in Hi.
Qed.

Lemma remove1_notin c l : ~ In c l -> remove1 c l = l.
Proof.
  intros H. unfold remove1. apply indexOf_None in H. now rewrite H.
Qed.

Lemma remove1_split c l :
  In c l ->
  exists before after,
    l = before ++ c :: after /\ ~ In c before /\ remove1 c l = before ++ after.
Proof.
  induction l as [|x l IH]; intros Hin; [contradiction|].
  rewrite remove1_cons.
  destruct (Nat.eqb_spec x c) as [->|Hne].
  - exists [], l. simpl. tauto.
  - destruct Hin as [Hx|Hin]; [congruence|].
    destruct (IH Hin) as (b & a & Hl & Hb & Hr).
    exists (x :: b), a. simpl. rewrite Hr. subst l.
    repeat split; trivial. intros [H|H]; [congruence | tauto].
Qed.

Lemma remove1_length c l : In c l -> S (length (remove1 c l)) = length l.
Proof.
  intros H. destruct (remove1_split c l H) as (b & a & -> & _ & ->).
  rewrite !length_app. simpl. lia.
Qed.

Lemma remove1_length_le c l : (length (remove1 c l) <= length l)%nat.
Proof.
  destruct (in_dec Nat.eq_dec c l) as [H|H].
  - apply remove1_length in H. lia.
  - rewrite remove1_notin by assumption. lia.
Qed.

Lemma remove1_subset x c l : In x (remove1 c l) -> In x l.
Proof.
  induction l as [|y l IH]; [trivial|].
  rewrite remove1_cons. destruct (Nat.eqb y c).
  - intros H. now right.
  - intros [H|H]; [now left | right; now apply IH].
Qed.

Lemma remove1_other x c l : x <> c -> In x l -> In x (remove1 c l).
Proof.
  intros Hx. induction l as [|y l IH]; [trivial|].
  rewrite remove1_cons. destruct (Nat.eqb_spec y c) as [->|Hy].
  - intros [H|H]; [congruence | exact H].
  - intros [H|H]; [now left | right; now apply IH].
Qed.

Lemma remove1_NoDup c l : NoDup l -> ~ In c (remove1 c l).
Proof.
  intros Hnd. destruct (in_dec Nat.eq_dec c l) as [H|H].
  - destruct (remove1_split c l H) as (b & a & -> & Hb & ->).
    apply NoDup_remove_2 in Hnd. exact Hnd.
  - now rewrite remove1_notin.
Qed.

Lemma filter_remove1 (f : ref -> bool) c l :
  f c = false -> filter f (remove1 c l) = filter f l.
Proof.
  intros Hf. induction l as [|x l IH]; [reflexivity|].
  rewrite remove1_cons. destruct (Nat.eqb_spec x c) as [->|Hne].
  - simpl. now rewrite Hf.
  - simpl. now rewrite IH.
Qed.

Lemma firstn_remove1 c l j :
  In c (firstn (S j) l) ->
  firstn j (remove1 c l) = remove1 c (firstn (S j) l).
Proof.
  revert j. induction l as [|x l IH]; intros j Hin; [contradiction|].
  change (firstn (S j) (x :: l)) with (x :: firstn j l) in *.
  rewrite !remove1_cons. destruct (Nat.eqb_spec x c) as [->|Hne]; [reflexivity|].
  destruct Hin as [Hx|Hin]; [congruence|].
  destruct j as [|j]; [contradiction|].
  simpl firstn at 1. f_equal. now apply IH.
Qed.

Lemma firstn_snoc (l : list ref) j x :
  nth_error l j = Some x -> firstn (S j) l = firstn j l ++ [x].
Proof.
  revert j. induction l as [|y l IH]; intros [|j] H; try discriminate.
  - simpl in H. injection H as ->. reflexivity.
  - simpl in H. change (firstn (S (S j)) (y :: l)) with (y :: firstn (S j) l).
    rewrite (IH j H). reflexivity.
Qed.

(** ** [release] *)

Lemma release_absent w c hard :
  ~ In c (pool (self w)) -> release w c hard = (false, w).
Proof.
  intros H. unfold release. apply indexOf_None in H. now rewrite H.
Qed.

Lemma release_present w c hard :
  In c (pool (self w)) ->
  exists w',
    release w c hard = (true, w') /\
    pool (self w') = remove1 c (pool (self w)) /\
    releases (self w') = releases (self w) + 1 /\
    trace w' = trace w ++ [Transport c (if hard then m_destroy else m_end)] /\
    quiet w w'.
Proof.
  intros H. unfold release, remove1.
  destruct (indexOf (pool (self w)) c) as [i|] eqn:Hi.
  - eexists. split; [reflexivity|]. simpl. repeat split; trivial.
    + pose proof (remove1_length_le c (pool (self w))) as L.
      unfold remove1 in L. now rewrite Hi in L.
    + eexists. split; [reflexivity|]. reflexivity.
  - apply indexOf_None in Hi. contradiction.
Qed.

Lemma quiet_refl w : quiet w w.
Proof.
  split; trivial. exists []. now rewrite app_nil_r.
Qed.

Lemma quiet_trans w1 w2 w3 : quiet w1 w2 -> quiet w2 w3 -> quiet w1 w3.
Proof.
  intros [] []. split; try congruence; try lia.
  destruct q_trace0 as (t & Ht & Hf), q_trace1 as (t' & Ht' & Hf').
  exists (t ++ t'). rewrite Ht', Ht, app_assoc. split; [reflexivity|].
  rewrite forallb_app, Hf, Hf'. reflexivity.
Qed.

Lemma release_quiet w c hard : quiet w (snd (release w c hard)).
Proof.
  destruct (in_dec Nat.eq_dec c (pool (self w))) as [H|H].
  - destruct (release_present w c hard H) as (w' & -> & _ & _ & _ & Hq). exact Hq.
  - rewrite release_absent by assumption. apply quiet_refl.
Qed.

Lemma release_pool w c hard :
  pool (self (snd (release w c hard))) = remove1 c (pool (self w)).
Proof.
  destruct (in_dec Nat.eq_dec c (pool (self w))) as [H|H].
  - destruct (release_present w c hard H) as (w' & -> & Hp & _). exact Hp.
  - rewrite release_absent by assumption. simpl. now rewrite remove1_notin.
Qed.

(** ** [isAvailable] *)

Lemma isAvailable_certain w c :
  certain (heap w c) = true -> isAvailable w c = (100, w).
Proof.
  unfold certain, isAvailable. now intros ->.
Qed.

Lemma isAvailable_quiet w c : quiet w (snd (isAvailable w c)).
Proof.
  unfold isAvailable.
  repeat match goal with
         | |- context [if ?b then _ else _] => destruct b
         end; simpl snd; try apply quiet_refl.
  - apply release_quiet.
  - split; trivial. exists []. now rewrite app_nil_r.
Qed.

Lemma isAvailable_pool w c :
  pool (self (snd (isAvailable w c))) = pool (self w) \/
  pool (self (snd (isAvailable w c))) = remove1 c (pool (self w)).
Proof.
  unfold isAvailable.
  repeat match goal with
         | |- context [if ?b then _ else _] => destruct b
         end; simpl snd; auto.
  right. apply release_pool.
Qed.

Lemma isAvailable_subset w c x :
  In x (pool (self (snd (isAvailable w c)))) -> In x (pool (self w)).
Proof.
  destruct (isAvailable_pool w c) as [-> | ->]; [trivial | apply remove1_subset].
Qed.

Lemma isAvailable_grade w c :
  fst (isAvailable w c) = grade (heap w c) (draws w (drawn w)).
Proof.
  unfold isAvailable, grade.
  repeat match goal with
         | |- context [if ?b then _ else _] => destruct b
         end; reflexivity.
Qed.

Lemma isAvailable_uncertain w c :
  fair (draws w) -> certain (heap w c) = false -> fst (isAvailable w c) <> 100.
Proof.
  intros Hfair. unfold certain, isAvailable. intros Hc. rewrite Hc.
  destruct (_ || destroyed _)%bool; [cbn [fst]; lia|].
  destruct (writable (heap w c)) eqn:Hw; cbn [negb]; [|cbn [fst]; lia].
  destruct (String.eqb _ "opening"); [cbn [fst]; lia|].
  rewrite Bool.andb_true_l in Hc. apply Z.eqb_neq in Hc.
  destruct (writes (heap w c) <? 100); cbn [fst].
  - lia.
  - specialize (Hfair (drawn w)). lia.
Qed.

Lemma isAvailable_100 w c :
  fair (draws w) -> fst (isAvailable w c) = 100 <-> certain (heap w c) = true.
Proof.
  intros Hfair. split.
  - intros H. destruct (certain (heap w c)) eqn:Hc; [reflexivity|].
    now apply isAvailable_uncertain in Hc.
  - intros H. now rewrite isAvailable_certain.
Qed.

(** ** The scan of [allocate] *)

Lemma scan_quiet i : forall w acc,
  match scan w i acc with
  | Found _ w' | Queued _ w' => quiet w w'
  | Thrown => True
  end.
Proof.
  induction i as [|i IH]; intros w acc; simpl.
  - apply quiet_refl.
  - destruct (nth_error (pool (self w)) i) as [c|]; [|exact I].
    pose proof (isAvailable_quiet w c) as Hq.
    destruct (isAvailable w c) as [p w1]. simpl in Hq.
    destruct (p =? 100); [exact Hq|].
    specialize (IH w1 (acc ++ [{| probability := p; connection := c |}])).
    destruct (scan w1 i _); trivial; eapply quiet_trans; eassumption.
Qed.

(** The loop index stays inside the pool, although scoring a connection may
    remove it: [pool[i]] is never [undefined]. *)
Lemma scan_total i : forall w acc,
  (i <= length (pool (self w)))%nat -> scan w i acc <> Thrown.
Proof.
  induction i as [|i IH]; intros w acc Hi; simpl; [discriminate|].
  destruct (nth_error (pool (self w)) i) as [c|] eqn:Hn.
  - pose proof (isAvailable_pool w c) as Hp.
    destruct (isAvailable w c) as [p w1]. simpl in Hp.
    destruct (p =? 100); [discriminate|].
    apply IH. destruct Hp as [-> | ->]; [lia|].
    apply nth_error_In in Hn. apply remove1_length in Hn. lia.
  - apply nth_error_None in Hn. lia.
Qed.

(** The loop runs from the last entry of the pool to the first, and returns
    at the first connection it finds certain: the last one of the pool. *)
Lemma scan_finds_last i : forall w acc fs c,
  fair (draws w) ->
  (i <= length (pool (self w)))%nat ->
  filter (fun x => certain (heap w x)) (firstn i (pool (self w))) = fs ++ [c] ->
  exists w', scan w i acc = Found c w' /\ quiet w w'.
Proof.
  induction i as [|i IH]; intros w acc fs c Hfair Hi Hf.
  - simpl in Hf. destruct fs; discriminate.
  - simpl. destruct (nth_error (pool (self w)) i) as [x|] eqn:Hn;
      [|apply nth_error_None in Hn; lia].
    rewrite (firstn_snoc _ _ _ Hn), filter_app in Hf. simpl in Hf.
    destruct (certain (heap w x)) eqn:Hc.
    + apply app_inj_tail in Hf. destruct Hf as [_ ->].
      rewrite isAvailable_certain by assumption. simpl.
      exists w. split; [reflexivity | apply quiet_refl].
    + rewrite app_nil_r in Hf.
      pose proof (isAvailable_uncertain w x Hfair Hc) as Hp.
      pose proof (isAvailable_quiet w x) as Hq.
      pose proof (isAvailable_pool w x) as Hpool.
      destruct (isAvailable w x) as [p w1]. simpl in Hp, Hq, Hpool.
      apply Z.eqb_neq in Hp. rewrite Hp.
      destruct (IH w1 (acc ++ [{| probability := p; connection := x |}]) fs c)
        as (w' & Hs & Hq').
      * now rewrite (q_draws _ _ Hq).
      * destruct Hpool as [-> | ->]; [lia|].
        apply nth_error_In in Hn. apply remove1_length in Hn. lia.
      * rewrite (q_heap _ _ Hq). destruct Hpool as [-> | ->]; [exact Hf|].
        rewrite firstn_remove1, filter_remove1; trivial.
        -- rewrite (firstn_snoc _ _ _ Hn), filter_app. simpl.
           now rewrite Hc, app_nil_r.
        -- rewrite (firstn_snoc _ _ _ Hn), in_app_iff. right. now left.
      * exists w'. split; [exact Hs|]. eapply quiet_trans; eassumption.
Qed.

(** ** [allocate], case by case *)

Lemma quiet_calls w w' : quiet w w' -> calls (trace w') = calls (trace w).
Proof.
  intros [_ _ _ _ _ _ _ _ _ _ _ _ _ (t & -> & Ht)].
  unfold calls. rewrite filter_app.
  replace (filter is_call t) with (@nil Effect); [now rewrite app_nil_r|].
  induction t as [|e t IH]; [reflexivity|].
  simpl in Ht. apply andb_prop in Ht. destruct Ht as [He Ht].
  destruct e; try discriminate. simpl. now apply IH.
Qed.

Lemma allocate_cases w fn made builder :
  generator (self w) = Some builder ->
  exists w1, quiet (attempt w) w1 /\
    ((exists c, scan (attempt w) (length (pool (self w))) [] = Found c w1 /\
        allocate w fn made = Some (log w1 (Called fn None (Some c)))) \/
     (exists ps, scan (attempt w) (length (pool (self w))) [] = Queued ps w1 /\
        ((Z.of_nat (length (pool (self w1))) + pending (self w1) < limit (self w1) /\
          ((arity builder = 0%nat /\
            ((exists c, made = Some c /\
                allocate w fn made =
                  Some (await (log w1 Generator_called) c (fresh w) fn)) \/
             (made = None /\
                allocate w fn made =
                  Some (semi_valid (log w1 Generator_called) fn ps)))) \/
           (arity builder <> 0%nat /\
            allocate w fn made =
              Some (set_requests (log w1 Generator_called)
                      (requests w1 ++ [(fresh w, fn)]))))) \/
         (limit (self w1) <= Z.of_nat (length (pool (self w1))) + pending (self w1) /\
          allocate w fn made = Some (semi_valid w1 fn ps))))).
Proof.
  intros Hg. unfold allocate. rewrite Hg.
  pose proof (scan_quiet (length (pool (self w))) (attempt w) []) as Hq.
  pose proof (scan_total (length (pool (self w))) (attempt w) []) as Ht.
  destruct (scan (attempt w) (length (pool (self w))) []) as [c w1|ps w1|].
  - exists w1. split; [exact Hq|]. left. exists c. split; reflexivity.
  - exists w1. split; [exact Hq|]. right. exists ps. split; [reflexivity|].
    destruct (Z.ltb_spec (Z.of_nat (length (pool (self w1))) + pending (self w1))
                (limit (self w1))) as [Hlt|Hge].
    + left. split; [exact Hlt|].
      destruct (Nat.eqb_spec (arity builder) 0) as [Ha|Ha].
      * left. split; [exact Ha|]. destruct made as [c|].
        -- left. exists c. split; reflexivity.
        -- right. split; reflexivity.
      * right. split; [exact Ha | reflexivity].
    + right. split; [exact Hge | reflexivity].
  - exfalso. apply Ht; [|reflexivity]. simpl. lia.
Qed.

(** ** The sort of [allocate] *)

Lemma insert_In x y l : In y (insert x l) <-> y = x \/ In y l.
Proof.
  induction l as [|z l IH]; simpl.
  - intuition congruence.
  - destruct (probability x <=? probability z); simpl; [intuition congruence|].
    rewrite IH. intuition congruence.
Qed.

Lemma sort_In y l : In y (sort l) <-> In y l.
Proof.
  induction l as [|x l IH]; simpl; [tauto|].
  rewrite insert_In, IH. intuition congruence.
Qed.

Lemma insert_sorted x l :
  StronglySorted by_probability l -> StronglySorted by_probability (insert x l).
Proof.
  induction 1 as [|z l Hs IH Hz]; simpl.
  - constructor; constructor.
  - destruct (Z.leb_spec (probability x) (probability z)) as [Hle|Hgt].
    + constructor; [constructor; assumption|].
      constructor; [exact Hle|].
      eapply Forall_impl; [|exact Hz]. unfold by_probability. intros; lia.
    + constructor; [exact IH|].
      apply Forall_forall. intros y Hy. apply insert_In in Hy.
      destruct Hy as [->|Hy]; [unfold by_probability; lia|].
      rewrite Forall_forall in Hz. now apply Hz.
Qed.

Lemma sort_sorted l : StronglySorted by_probability (sort l).
Proof.
  induction l as [|x l IH]; simpl; [constructor | now apply insert_sorted].
Qed.

Lemma pop_In l p : pop l = Some p -> In p l.
Proof.
  induction l as [|x [|y l] IH]; simpl; intros H; try discriminate.
  - injection H as ->. now left.
  - right. now apply IH.
Qed.

Lemma pop_None l : pop l = None -> l = [].
Proof.
  induction l as [|x [|y l] IH]; simpl; intros H; trivial; try discriminate.
  specialize (IH H). discriminate.
Qed.

Lemma pop_sorted l p :
  StronglySorted by_probability l -> pop l = Some p ->
  forall e, In e l -> probability e <= probability p.
Proof.
  induction 1 as [|x l Hs IH Hx]; intros Hp e He; [contradiction|].
  destruct l as [|y l].
  - simpl in Hp. injection Hp as <-. destruct He as [->|[]]. lia.
  - change (pop (y :: l) = Some p) in Hp. destruct He as [->|He].
    + rewrite Forall_forall in Hx. apply Hx. now apply pop_In.
    + now apply IH.
Qed.

(** What the tail of [allocate] hands to the callback. *)
Lemma semi_valid_spec w fn ps :
  (exists best,
      In best ps /\ (forall e, In e ps -> probability e <= probability best) /\
      60 <= probability best /\
      semi_valid w fn ps = log w (Called fn None (Some (connection best)))) \/
  ((forall e, In e ps -> probability e < 60) /\
   semi_valid w fn ps = log w (Called fn (Some pool_full) None)).
Proof.
  unfold semi_valid. destruct (pop (sort ps)) as [p|] eqn:Hp.
  - assert (Hmax : forall e, In e ps -> probability e <= probability p).
    { intros e He. apply (pop_sorted (sort ps)); trivial.
      - apply sort_sorted.
      - now apply sort_In. }
    destruct (Z.geb_spec (probability p) 60) as [Hge|Hlt].
    + left. exists p. split; [apply sort_In; now apply pop_In|].
      split; [exact Hmax|]. split; [lia | reflexivity].
    + right. split; [|reflexivity]. intros e He. specialize (Hmax e He). lia.
  - right. split; [|reflexivity]. apply pop_None in Hp.
    intros e He. apply sort_In in He. rewrite Hp in He. contradiction.
Qed.

(** ** The claims about [isAvailable] and [release] *)

(** C5.  A connection whose [readyState] is ['opening'] is not writable, so
    the test [if (!writable) return 0] answers before the test for
    ['opening'] is reached: the scorer returns 0 for it, and the 70 of the
    source is never returned. *)
Theorem opening_scores_zero w c :
  readyState (heap w c) = "opening"%string ->
  fst (isAvailable w c) = 0 /\ fst (isAvailable w c) <> 70.
Proof.
  intros H. unfold isAvailable, writable. rewrite H. simpl.
  destruct (destroyed (heap w c)); simpl; split; lia.
Qed.

Lemma opening_scores_zero_witness :
  readyState (heap warm 5%nat) = "opening"%string /\
  fst (isAvailable warm 5%nat) = 0 /\ fst (isAvailable warm 5%nat) <> 70.
Proof.
  split; [reflexivity|]. apply (opening_scores_zero warm 5%nat). reflexivity.
Defined.

(** C6 (counterexample).  Connection 6 has its destroyed flag set, reports
    ['open'] and has nothing queued: it scores 100 and stays in the pool. *)
Lemma destroyed_connection_scores_100 :
  destroyed (heap haunted 6%nat) = true /\
  In 6%nat (pool (self haunted)) /\
  fst (isAvailable haunted 6%nat) = 100 /\
  fst (isAvailable haunted 6%nat) <> 0 /\
  In 6%nat (pool (self (snd (isAvailable haunted 6%nat)))).
Proof.
  vm_compute. repeat split; auto; discriminate.
Qed.

(** C6 (as amended).  A connection that is closed, or that is destroyed and
    does not pass the first test (writable with nothing pending), scores 0,
    and scoring it releases it: its first entry leaves the pool, [releases]
    counts it, and a pool that held it once does not hold it any more. *)
Theorem dead_connection_is_evicted w c :
  readyState (heap w c) = "closed"%string \/
  (destroyed (heap w c) = true /\ certain (heap w c) = false) ->
  fst (isAvailable w c) = 0 /\
  pool (self (snd (isAvailable w c))) = remove1 c (pool (self w)) /\
  (In c (pool (self w)) ->
   releases (self (snd (isAvailable w c))) = releases (self w) + 1) /\
  (NoDup (pool (self w)) -> ~ In c (pool (self (snd (isAvailable w c))))).
Proof.
  intros H.
  assert (E : isAvailable w c = (0, snd (remove w c))).
  { unfold isAvailable. destruct H as [H|[H1 H2]].
    - unfold writable. rewrite H. reflexivity.
    - unfold certain in H2. rewrite H2, H1, Bool.orb_true_r. reflexivity. }
  rewrite E. unfold remove. cbn [fst snd]. split; [reflexivity|].
  split; [apply release_pool|]. split.
  - intros Hin. destruct (release_present w c false Hin) as (w' & -> & _ & Hr & _).
    exact Hr.
  - intros Hnd. rewrite release_pool. now apply remove1_NoDup.
Qed.

Lemma dead_connection_is_evicted_witness :
  fst (isAvailable warm 4%nat) = 0 /\
  pool (self (snd (isAvailable warm 4%nat))) = remove1 4%nat (pool (self warm)) /\
  (In 4%nat (pool (self warm)) ->
   releases (self (snd (isAvailable warm 4%nat))) = releases (self warm) + 1) /\
  (NoDup (pool (self warm)) ->
   ~ In 4%nat (pool (self (snd (isAvailable warm 4%nat))))).
Proof.
  apply (dead_connection_is_evicted warm 4%nat). left. reflexivity.
Defined.

(** C8.  [release] of a connection that is in the pool returns true, takes
    the connection out of the pool (its first entry; a pool that held it once
    no longer holds it) and adds exactly 1 to [releases]; [release] of a
    connection that is not in the pool returns false and changes nothing. *)
Theorem release_removes_and_counts w c hard :
  (In c (pool (self w)) ->
   fst (release w c hard) = true /\
   (exists before rest,
       pool (self w) = before ++ c :: rest /\ ~ In c before /\
       pool (self (snd (release w c hard))) = before ++ rest) /\
   (NoDup (pool (self w)) -> ~ In c (pool (self (snd (release w c hard))))) /\
   releases (self (snd (release w c hard))) = releases (self w) + 1) /\
  (~ In c (pool (self w)) ->
   fst (release w c hard) = false /\
   pool (self (snd (release w c hard))) = pool (self w) /\
   releases (self (snd (release w c hard))) = releases (self w) /\
   snd (release w c hard) = w).
Proof.
  split; intros H.
  - destruct (release_present w c hard H) as (w' & E & Hp & Hr & _).
    rewrite E. cbn [fst snd]. split; [reflexivity|]. split; [|split].
    + destruct (remove1_split c _ H) as (b & a & Hl & Hb & Hrm).
      exists b, a. rewrite Hp, Hrm. auto.
    + intros Hnd. rewrite Hp. now apply remove1_NoDup.
    + exact Hr.
  - rewrite release_absent by assumption. cbn [fst snd]. auto.
Qed.

Lemma release_removes_and_counts_witness :
  In 2%nat (pool (self warm)) /\ ~ In 9%nat (pool (self warm)) /\
  fst (release warm 2%nat true) = true /\
  pool (self (snd (release warm 2%nat true))) = [1; 3; 4]%nat /\
  releases (self (snd (release warm 2%nat true))) = releases (self warm) + 1 /\
  fst (release warm 9%nat true) = false /\
  snd (release warm 9%nat true) = warm.
Proof.
  assert (Hin : In 2%nat (pool (self warm))) by (vm_compute; auto).
  assert (Hout : ~ In 9%nat (pool (self warm))).
  { vm_compute. intros H. repeat (destruct H as [H|H]; [discriminate|]). exact H. }
  destruct (release_removes_and_counts warm 2%nat true) as [Hyes _].
  destruct (release_removes_and_counts warm 9%nat true) as [_ Hno].
  destruct (Hyes Hin) as (Ht & _ & _ & Hr).
  destruct (Hno Hout) as (Hf & _ & _ & Hw).
  split; [exact Hin|]. split; [exact Hout|]. split; [exact Ht|].
  split; [vm_compute; reflexivity|]. split; [exact Hr|].
  split; [exact Hf | exact Hw].
Defined.

(** ** The claims about [allocate] *)

Lemma calls_app t u : calls (t ++ u) = calls t ++ calls u.
Proof. apply filter_app. Qed.

Lemma semi_valid_log w fn ps :
  exists e, semi_valid w fn ps = log w e /\ calls [e] = [e].
Proof.
  destruct (semi_valid_spec w fn ps) as [(b & _ & _ & _ & ->)|(_ & ->)];
    eexists; split; reflexivity.
Qed.

(** C3 (counterexample).  A manager without a factory answers the callback
    with an error and returns before the metric is touched: [allocations]
    stays what it was. *)
Lemma allocate_without_factory_is_not_counted :
  generator (self unconfigured) = None /\
  option_map (fun w => allocations (self w)) (allocate unconfigured 1%nat None)
    = Some (allocations (self unconfigured)) /\
  option_map (fun w => allocations (self w)) (allocate unconfigured 1%nat None)
    <> Some (allocations (self unconfigured) + 1) /\
  option_map trace (allocate unconfigured 1%nat None)
    = Some [Called 1%nat (Some no_factory) None].
Proof.
  vm_compute. repeat split; trivial; discriminate.
Qed.

(** C3 (as amended).  Every call of [allocate] on a manager that has a
    factory returns and adds exactly 1 to [allocations], whatever the
    outcome; a call on a manager without a factory completes with the error
    'Specify a stream#factory' and leaves [allocations] as it was. *)
Theorem allocate_counts_attempts w fn made :
  (generator (self w) <> None ->
   exists w',
     allocate w fn made = Some w' /\
     allocations (self w') = allocations (self w) + 1) /\
  (generator (self w) = None ->
   exists w',
     allocate w fn made = Some w' /\
     allocations (self w') = allocations (self w) /\
     trace w' = trace w ++ [Called fn (Some no_factory) None]).
Proof.
  split; intros Hg.
  - destruct (generator (self w)) as [builder|] eqn:E; [clear Hg|congruence].
    destruct (allocate_cases w fn made builder E) as (w1 & Hq & H).
    assert (Ha : allocations (self w1) = allocations (self w) + 1)
      by (rewrite (q_allocations _ _ Hq); reflexivity).
    destruct H as [(c & _ & ->)|(ps & _ & [(_ & [(_ & [(c & _ & ->)|(_ & ->)])
                                                   |(_ & ->)])|(_ & ->)])];
      eexists; (split; [reflexivity|]); trivial.
    + destruct (semi_valid_log (log w1 Generator_called) fn ps) as (e & -> & _).
      exact Ha.
    + destruct (semi_valid_log w1 fn ps) as (e & -> & _). exact Ha.
  - unfold allocate. rewrite Hg. eexists. split; [reflexivity|]. split; reflexivity.
Qed.

Lemma allocate_counts_attempts_witness :
  (exists w',
     allocate warm 21%nat None = Some w' /\
     allocations (self w') = allocations (self warm) + 1) /\
  (exists w',
     allocate unconfigured 21%nat None = Some w' /\
     allocations (self w') = allocations (self unconfigured) /\
     trace w' = trace unconfigured ++ [Called 21%nat (Some no_factory) None]).
Proof.
  split.
  - apply (proj1 (allocate_counts_attempts warm 21%nat None)).
    vm_compute. discriminate.
  - apply (proj2 (allocate_counts_attempts unconfigured 21%nat None)).
    reflexivity.
Defined.

Lemma filter_none (f : ref -> bool) l :
  (forall x, In x l -> f x = false) -> filter f l = [].
Proof.
  induction l as [|x l IH]; intros H; [reflexivity|].
  simpl. rewrite (H x) by now left. apply IH. intros y Hy. apply H. now right.
Qed.

(** C4 (counterexample).  In a pool of the idle connections 1, 2 (then 3 and
    a closed 4) the first connection in pool order that scores 100 is 1;
    [allocate] completes with 2. *)
Lemma allocate_does_not_return_the_first :
  pool (self warm) = [1; 2; 3; 4]%nat /\
  fst (isAvailable warm 1%nat) = 100 /\
  option_map (fun w => calls (trace w)) (allocate warm 21%nat None)
    = Some (calls (trace warm) ++ [Called 21%nat None (Some 2%nat)]) /\
  option_map (fun w => calls (trace w)) (allocate warm 21%nat None)
    <> Some (calls (trace warm) ++ [Called 21%nat None (Some 1%nat)]).
Proof.
  vm_compute. repeat split; trivial; discriminate.
Qed.

(** C4 (as amended).  When the manager has a factory and the pool holds a
    connection that scores exactly 100, [allocate] completes at once, without
    calling the factory, with the last such connection in pool order: the
    scan runs from the newest entry of the pool to the oldest, without
    sorting, and on its way only evicts dead connections. *)
Theorem allocate_returns_last_certain w fn made before c rest :
  generator (self w) <> None ->
  fair (draws w) ->
  pool (self w) = before ++ c :: rest ->
  fst (isAvailable w c) = 100 ->
  (forall x, In x rest -> fst (isAvailable w x) <> 100) ->
  exists w' t,
    allocate w fn made = Some w' /\
    trace w' = trace w ++ t ++ [Called fn None (Some c)] /\
    forallb is_transport t = true /\
    pending (self w') = pending (self w) /\
    requests w' = requests w /\
    listeners w' = listeners w.
Proof.
  intros Hg Hfair Hpool Hc Hrest.
  destruct (generator (self w)) as [builder|] eqn:E; [clear Hg|congruence].
  apply isAvailable_100 in Hc; [|exact Hfair].
  assert (Hf : filter (fun x => certain (heap (attempt w) x))
                 (firstn (length (pool (self w))) (pool (self (attempt w))))
               = filter (fun x => certain (heap w x)) before ++ [c]).
  { cbn [attempt heap self set_self set_fresh set_allocations pool].
    rewrite firstn_all, Hpool, filter_app. cbn [filter]. rewrite Hc.
    rewrite (filter_none _ rest); [reflexivity|].
    intros x Hx. destruct (certain (heap w x)) eqn:Hcx; [|reflexivity].
    exfalso. apply (Hrest x Hx). now apply isAvailable_100. }
  destruct (scan_finds_last (length (pool (self w))) (attempt w) [] _ c Hfair
              (Nat.le_refl _) Hf) as (w1 & Hs & Hq).
  destruct (allocate_cases w fn made builder E) as (w1' & _ & H).
  destruct H as [(c' & Hs' & ->)|(ps & Hs' & _)]; [|congruence].
  rewrite Hs in Hs'. injection Hs' as <- <-.
  destruct (q_trace _ _ Hq) as (t & Ht & Htr).
  exists (log w1 (Called fn None (Some c))), t.
  split; [reflexivity|]. cbn [log trace self pending requests listeners].
  rewrite Ht, (q_pending _ _ Hq), (q_requests _ _ Hq), (q_listeners _ _ Hq).
  rewrite <- app_assoc. repeat split; trivial.
Qed.

Lemma allocate_returns_last_certain_witness :
  exists w' t,
    allocate warm 21%nat None = Some w' /\
    trace w' = trace warm ++ t ++ [Called 21%nat None (Some 2%nat)] /\
    forallb is_transport t = true /\
    pending (self w') = pending (self warm) /\
    requests w' = requests warm /\
    listeners w' = listeners warm.
Proof.
  apply (allocate_returns_last_certain warm 21%nat None [1%nat] 2%nat [3%nat; 4%nat]).
  - vm_compute. discriminate.
  - intros n. vm_compute. split; [intros H; discriminate H | reflexivity].
  - vm_compute. reflexivity.
  - vm_compute. reflexivity.
  - intros x [<-|[<-|[]]]; vm_compute; discriminate.
Defined.

(** What the scan queues: an entry for every connection of the pool, and
    nothing but connections of the pool, each with the value [isAvailable]
    gave for it. *)
Lemma scan_candidates i : forall w acc ps w1,
  scan w i acc = Queued ps w1 ->
  (forall e, In e acc -> In e ps) /\
  (forall x, In x (firstn i (pool (self w))) ->
             exists e, In e ps /\ connection e = x) /\
  (forall e, In e ps ->
             In e acc \/
             (In (connection e) (pool (self w)) /\
              exists n, probability e = grade (heap w (connection e)) (draws w n))).
Proof.
  induction i as [|i IH]; intros w acc ps w1 H; simpl in H.
  - injection H as <- <-. repeat split; auto. intros x []. 
  - destruct (nth_error (pool (self w)) i) as [c|] eqn:Hn; [|discriminate].
    pose proof (isAvailable_quiet w c) as Hq.
    pose proof (isAvailable_pool w c) as Hp.
    pose proof (isAvailable_subset w c) as Hs.
    pose proof (isAvailable_grade w c) as Hg.
    destruct (isAvailable w c) as [p w0]. cbn [fst snd] in Hq, Hp, Hs, Hg.
    destruct (p =? 100); [discriminate|].
    destruct (IH _ _ _ _ H) as (I1 & I2 & I3).
    rewrite (q_heap _ _ Hq), (q_draws _ _ Hq) in I3.
    split; [|split].
    + intros e He. apply I1. apply in_app_iff. now left.
    + intros x Hx. rewrite (firstn_snoc _ _ _ Hn) in Hx.
      destruct (Nat.eq_dec x c) as [->|Hxc].
      * exists {| probability := p; connection := c |}. split; [|reflexivity].
        apply I1. apply in_app_iff. right. now left.
      * apply I2. apply in_app_iff in Hx. destruct Hx as [Hx|[Hx|[]]]; [|congruence].
        destruct Hp as [-> | ->]; [exact Hx|].
        rewrite firstn_remove1
          by (rewrite (firstn_snoc _ _ _ Hn), in_app_iff; right; now left).
        apply remove1_other; [exact Hxc|].
        rewrite (firstn_snoc _ _ _ Hn), in_app_iff. now left.
    + intros e He. destruct (I3 e He) as [Ha|(Hin & n & Hn')].
      * apply in_app_iff in Ha. destruct Ha as [Ha|[<-|[]]]; [now left|].
        right. cbn [connection probability]. split; [now apply nth_error_In in Hn|].
        exists (drawn w). exact Hg.
      * right. split; [now apply Hs | now exists n].
Qed.

(** C7.  When the scan of [allocate] finds no connection that scores 100 and
    no connection is created (the limit is reached, or the generator takes no
    callback and returned nothing), the candidates the scan has queued are
    the connections of the pool, every one of them, each with the value
    [isAvailable] gave for it, and [allocate] completes with a candidate of
    the highest probability if that probability is at least 60, and with the
    error 'The connection pool is full' otherwise. *)
Theorem allocate_settles_for_most_probable w fn made builder ps w1 :
  generator (self w) = Some builder ->
  scan (attempt w) (length (pool (self w))) [] = Queued ps w1 ->
  limit (self w1) <= Z.of_nat (length (pool (self w1))) + pending (self w1) \/
    (arity builder = 0%nat /\ made = None) ->
  (forall x, In x (pool (self w)) -> exists e, In e ps /\ connection e = x) /\
  (forall e, In e ps ->
     In (connection e) (pool (self w)) /\
     exists n, probability e = grade (heap w (connection e)) (draws w n)) /\
  exists w',
    allocate w fn made = Some w' /\
    pool (self w') = pool (self w1) /\
    pending (self w') = pending (self w) /\
    ((exists best,
         In best ps /\
         (forall e, In e ps -> probability e <= probability best) /\
         60 <= probability best /\
         calls (trace w') = calls (trace w) ++ [Called fn None (Some (connection best))]) \/
     ((forall e, In e ps -> probability e < 60) /\
      calls (trace w') = calls (trace w) ++ [Called fn (Some pool_full) None])).
Proof.
  intros Hg Hs Hno.
  destruct (scan_candidates _ _ _ _ _ Hs) as (_ & K2 & K3).
  split.
  { intros x Hx. apply K2.
    cbn [attempt self pool set_self set_fresh set_allocations].
    now rewrite firstn_all. }
  split.
  { intros e He. destruct (K3 e He) as [[]|K]. exact K. }
  destruct (allocate_cases w fn made builder Hg) as (w1' & Hq & H).
  destruct H as [(c' & Hs' & _)|(ps' & Hs' & H)]; [congruence|].
  rewrite Hs in Hs'. injection Hs' as <- <-.
  assert (Hc : calls (trace w1) = calls (trace w))
    by (rewrite (quiet_calls _ _ Hq); reflexivity).
  assert (Hp : pending (self w1) = pending (self w))
    by (rewrite (q_pending _ _ Hq); reflexivity).
  assert (settle : forall w2,
             pool (self w2) = pool (self w1) -> pending (self w2) = pending (self w1) ->
             calls (trace w2) = calls (trace w1) ->
             allocate w fn made = Some (semi_valid w2 fn ps) ->
             exists w',
               allocate w fn made = Some w' /\
               pool (self w') = pool (self w1) /\
               pending (self w') = pending (self w) /\
               ((exists best,
                    In best ps /\
                    (forall e, In e ps -> probability e <= probability best) /\
                    60 <= probability best /\
                    calls (trace w') =
                      calls (trace w) ++ [Called fn None (Some (connection best))]) \/
                ((forall e, In e ps -> probability e < 60) /\
                 calls (trace w') = calls (trace w) ++ [Called fn (Some pool_full) None]))).
  { intros w2 H1 H2 H3 Ha. exists (semi_valid w2 fn ps). split; [exact Ha|].
    destruct (semi_valid_spec w2 fn ps) as [(b & Hb & Hmax & H60 & ->)|(Hlow & ->)];
      cbn [log trace self pool pending]; rewrite calls_app, H3, Hc;
      (split; [exact H1|]); (split; [congruence|]).
    - left. exists b. auto.
    - right. auto. }
  destruct H as [(Hlt & [(Ha & [(c & Hm & _)|(_ & E)])|(Ha & _)])|(_ & E)].
  - destruct Hno as [Hno|[_ Hno]]; [lia | congruence].
  - apply (settle (log w1 Generator_called)); trivial.
    cbn [log trace]. rewrite calls_app. apply app_nil_r.
  - destruct Hno as [Hno|[Hno _]]; [lia | congruence].
  - apply (settle w1); trivial.
Qed.

Lemma allocate_settles_for_most_probable_witness :
  (forall x, In x (pool (self contended)) ->
     exists e,
       In e [{| probability := 50; connection := 7%nat |};
             {| probability := 70; connection := 3%nat |}] /\ connection e = x) /\
  (forall e,
     In e [{| probability := 50; connection := 7%nat |};
           {| probability := 70; connection := 3%nat |}] ->
     In (connection e) (pool (self contended)) /\
     exists n,
       probability e = grade (heap contended (connection e)) (draws contended n)) /\
  exists w',
    allocate contended 21%nat None = Some w' /\
    pool (self w') = pool (self (attempt contended)) /\
    pending (self w') = pending (self contended) /\
    ((exists best,
         In best [{| probability := 50; connection := 7%nat |};
                  {| probability := 70; connection := 3%nat |}] /\
         (forall e, In e [{| probability := 50; connection := 7%nat |};
                          {| probability := 70; connection := 3%nat |}] ->
                    probability e <= probability best) /\
         60 <= probability best /\
         calls (trace w') =
           calls (trace contended) ++ [Called 21%nat None (Some (connection best))]) \/
     ((forall e, In e [{| probability := 50; connection := 7%nat |};
                       {| probability := 70; connection := 3%nat |}] ->
                 probability e < 60) /\
      calls (trace w') =
        calls (trace contended) ++ [Called 21%nat (Some pool_full) None])).
Proof.
  apply (allocate_settles_for_most_probable contended 21%nat None sync_factory
           [{| probability := 50; connection := 7%nat |};
            {| probability := 70; connection := 3%nat |}] (attempt contended)).
  - vm_compute. reflexivity.
  - vm_compute. reflexivity.
  - left. vm_compute. discriminate.
Defined.

(** Of the two busy connections of a full pool, the one with the shorter
    queue is handed out, whatever its place in the pool. *)
Lemma most_probable_of_two_wins :
  pool (self contended) = [3; 7]%nat /\
  option_map (fun w => calls (trace w)) (allocate contended 21%nat None)
    = Some (calls (trace contended) ++ [Called 21%nat None (Some 3%nat)]).
Proof.
  vm_compute. split; reflexivity.
Qed.

(** ** Bookkeeping of the events *)

Lemma closes_app t u : closes (t ++ u) = (closes t + closes u)%nat.
Proof.
  induction t as [|e t IH]; [reflexivity|].
  destruct e; simpl; rewrite IH; reflexivity.
Qed.

Lemma positives_app l m : positives (l ++ m) = (positives l + positives m)%nat.
Proof.
  induction l as [|x l IH]; [reflexivity|]. simpl. rewrite IH. lia.
Qed.

Lemma closes_transport t : forallb is_transport t = true -> closes t = 0%nat.
Proof.
  induction t as [|e t IH]; [reflexivity|]. simpl. intros H.
  apply andb_prop in H. destruct H as [He Ht]. destruct e; try discriminate.
  now apply IH.
Qed.

Lemma quiet_closes w w' : quiet w w' -> closes (trace w') = closes (trace w).
Proof.
  intros Hq. destruct (q_trace _ _ Hq) as (t & -> & Ht).
  rewrite closes_app, (closes_transport t Ht). lia.
Qed.

Lemma steady_same w w' :
  ending (self w') = ending (self w) ->
  closes (trace w') = closes (trace w) ->
  steady w w'.
Proof.
  intros He Hc. unfold steady, countdown. rewrite He, Hc. split; lia.
Qed.

Lemma steady_refl w : steady w w.
Proof. now apply steady_same. Qed.

Lemma steady_trans w1 w2 w3 : steady w1 w2 -> steady w2 w3 -> steady w1 w3.
Proof. unfold steady. intros [] []. split; [congruence | lia]. Qed.

Lemma quiet_steady w w' : quiet w w' -> steady w w'.
Proof.
  intros Hq. apply steady_same; [apply (q_ending _ _ Hq) | now apply quiet_closes].
Qed.

Lemma quiet_capacity w w' : quiet w w' -> capacity w -> capacity w'.
Proof.
  intros Hq. unfold capacity.
  rewrite (q_limit _ _ Hq), (q_pending _ _ Hq).
  pose proof (q_pool _ _ Hq). lia.
Qed.

(** One ['connection:close'] event: every listener counts down by one, and a
    listener emits ['close'] exactly when it goes from 1 to 0. *)
Lemma run_ending_spec snapshot : forall w kept,
  (closes (trace (run_ending w kept snapshot))
   + positives (ending (self (run_ending w kept snapshot)))
   = closes (trace w) + positives kept + positives snapshot)%nat /\
  (positives (ending (self (run_ending w kept snapshot)))
   <= positives kept + positives snapshot)%nat /\
  limit (self (run_ending w kept snapshot)) = limit (self w) /\
  pool (self (run_ending w kept snapshot)) = pool (self w) /\
  pending (self (run_ending w kept snapshot)) = pending (self w).
Proof.
  induction snapshot as [|size rest IH]; intros w kept.
  - simpl. repeat split; lia.
  - cbn [run_ending positives].
    destruct (Z.eqb_spec (size - 1) 0) as [E|E].
    + destruct (IH (log w Emitted_close) kept) as (H1 & H2 & H3 & H4 & H5).
      replace (0 <? size) with true by (symmetry; apply Z.ltb_lt; lia).
      cbn [log trace self] in H1, H3, H4, H5. rewrite closes_app in H1.
      simpl closes in H1. repeat split; trivial; lia.
    + destruct (IH w (kept ++ [size - 1])) as (H1 & H2 & H3 & H4 & H5).
      rewrite positives_app in H1, H2. cbn [positives] in H1, H2.
      replace (0 <? size - 1) with (0 <? size) in H1, H2
        by (destruct (Z.ltb_spec 0 size), (Z.ltb_spec 0 (size - 1)); trivial; lia).
      repeat split; trivial; lia.
Qed.

Lemma emit_connection_close_steady w c : steady w (emit_connection_close w c).
Proof.
  unfold emit_connection_close, steady, countdown.
  destruct (run_ending_spec (ending (self (log w (Emitted_connection_close c))))
              (log w (Emitted_connection_close c)) []) as (H1 & H2 & _).
  cbn [log trace self positives] in *. rewrite closes_app in H1. simpl closes in H1.
  split; lia.
Qed.

Lemma emit_connection_close_self w c :
  limit (self (emit_connection_close w c)) = limit (self w) /\
  pool (self (emit_connection_close w c)) = pool (self w) /\
  pending (self (emit_connection_close w c)) = pending (self w).
Proof.
  unfold emit_connection_close.
  destruct (run_ending_spec (ending (self (log w (Emitted_connection_close c))))
              (log w (Emitted_connection_close c)) []) as (_ & _ & H).
  exact H.
Qed.

(** ** What each operation leaves unchanged *)

Lemma log_steady w e : e <> Emitted_close -> steady w (log w e).
Proof.
  intros He. apply steady_same; [reflexivity|].
  cbn [log trace]. rewrite closes_app. destruct e; simpl; try lia. congruence.
Qed.

Lemma semi_valid_steady w fn ps : steady w (semi_valid w fn ps).
Proof.
  destruct (semi_valid_log w fn ps) as (e & -> & He).
  apply log_steady. intros ->. discriminate.
Qed.

Lemma semi_valid_self w fn ps : self (semi_valid w fn ps) = self w.
Proof.
  destruct (semi_valid_log w fn ps) as (e & -> & _). reflexivity.
Qed.

Lemma attempt_steady w : steady w (attempt w).
Proof. now apply steady_same. Qed.

Lemma allocate_steady w fn made w' : allocate w fn made = Some w' -> steady w w'.
Proof.
  intros Ha. destruct (generator (self w)) as [builder|] eqn:E.
  - destruct (allocate_cases w fn made builder E) as (w1 & Hq & H).
    apply steady_trans with w1;
      [eapply steady_trans; [apply attempt_steady | now apply quiet_steady]|].
    destruct H as [(c & _ & H)|(ps & _ & [(_ & [(_ & [(c & _ & H)|(_ & H)])
                                                  |(_ & H)])|(_ & H)])];
      rewrite H in Ha; injection Ha as <-.
    + now apply log_steady.
    + apply steady_same; [reflexivity|]. simpl. rewrite closes_app. simpl. lia.
    + eapply steady_trans; [|apply semi_valid_steady]. now apply log_steady.
    + apply steady_same; [reflexivity|]. simpl. rewrite closes_app. simpl. lia.
    + apply semi_valid_steady.
  - unfold allocate in Ha. rewrite E in Ha. injection Ha as <-. now apply log_steady.
Qed.

Lemma allocate_capacity w fn made w' :
  allocate w fn made = Some w' -> capacity w -> capacity w'.
Proof.
  intros Ha Hc. destruct (generator (self w)) as [builder|] eqn:E.
  - destruct (allocate_cases w fn made builder E) as (w1 & Hq & H).
    assert (Hc1 : capacity w1) by (apply (quiet_capacity _ _ Hq); exact Hc).
    unfold capacity in *.
    destruct H as [(c & _ & H)|(ps & _ & [(Hlt & [(_ & [(c & _ & H)|(_ & H)])
                                                    |(_ & H)])|(_ & H)])];
      rewrite H in Ha; injection Ha as <-; rewrite ?semi_valid_self; simpl; lia.
  - unfold allocate in Ha. rewrite E in Ha. injection Ha as <-. exact Hc.
Qed.

Lemma generate_steady w k fn err made : steady w (generate w k fn err made).
Proof.
  unfold generate. destruct err as [e|]; [now apply log_steady|].
  destruct made as [c|]; [|now apply log_steady].
  now apply steady_same.
Qed.

Lemma run_listener_spec w c l arg w' :
  run_listener w c l arg = Some w' ->
  steady w w' /\ (capacity w -> capacity w') /\
  (is_regenerate l = true ->
   (length (pool (self w')) <= length (pool (self w)))%nat).
Proof.
  destruct l as [k|k fn]; simpl; intros H.
  - set (w1 := log w (Transport c m_destroySoon)) in *.
    assert (Hq : quiet w1 (snd (remove w1 c))) by apply release_quiet.
    set (w2 := snd (remove w1 c)) in *.
    set (w3 := removeListener w2 c (regenerate k)) in *.
    assert (S1 : steady w w3).
    { apply steady_trans with w1; [now apply log_steady|].
      apply steady_trans with w2; [now apply quiet_steady | now apply steady_same]. }
    assert (C1 : capacity w -> capacity w3)
      by (intros Hc; apply (quiet_capacity w1 w2 Hq); exact Hc).
    assert (L1 : (length (pool (self w3)) <= length (pool (self w)))%nat)
      by (apply (q_pool _ _ Hq)).
    destruct arg as [err|].
    + unfold emit_error in H. destruct (on_error (self w3)); [|discriminate].
      injection H as <-. repeat split.
      * eapply steady_trans; [exact S1 | now apply log_steady].
      * apply S1.
      * exact C1.
      * intros _. exact L1.
    + injection H as <-.
      destruct (emit_connection_close_self w3 c) as (E1 & E2 & E3). split; [|split].
      * eapply steady_trans; [exact S1 | apply emit_connection_close_steady].
      * intros Hc. specialize (C1 Hc). unfold capacity in *. rewrite E1, E2, E3.
        exact C1.
      * intros _. rewrite E2. exact L1.
  - injection H as <-. split; [|split].
    + apply steady_same; [reflexivity|]. simpl. rewrite closes_app. simpl. lia.
    + unfold capacity. simpl. rewrite length_app. simpl. lia.
    + discriminate.
Qed.

Lemma run_listeners_spec snapshot : forall w c arg w',
  run_listeners w c snapshot arg = Some w' ->
  steady w w' /\ (capacity w -> capacity w') /\
  (forallb is_regenerate snapshot = true ->
   (length (pool (self w')) <= length (pool (self w)))%nat).
Proof.
  induction snapshot as [|l rest IH]; intros w c arg w' H; simpl in H.
  - injection H as <-. split; [apply steady_refl|]. split; auto.
  - destruct (run_listener w c l arg) as [w1|] eqn:E; [|discriminate].
    destruct (run_listener_spec _ _ _ _ _ E) as (S1 & C1 & L1).
    destruct (IH _ _ _ _ H) as (S2 & C2 & L2). split; [|split].
    + eapply steady_trans; eassumption.
    + auto.
    + simpl. intros Hr. apply andb_prop in Hr. destruct Hr as [Hl Hr].
      specialize (L1 Hl). specialize (L2 Hr). lia.
Qed.

Lemma emit_spec w c s arg w' :
  emit w c s arg = Some w' ->
  steady w w' /\ (capacity w -> capacity w') /\
  (draining (A_emit c s arg) = true ->
   (length (pool (self w')) <= length (pool (self w)))%nat).
Proof.
  unfold emit. intros H.
  destruct (run_listeners_spec _ _ _ _ _ H) as (S1 & C1 & L1).
  split; [exact S1|]. split; [exact C1|]. intros Hd. apply L1.
  apply forallb_forall. intros l Hl. apply in_map_iff in Hl.
  destruct Hl as ((c', l') & <- & Hl). apply filter_In in Hl.
  destruct Hl as [_ Hl]. apply andb_prop in Hl. destruct Hl as [_ Hl].
  simpl in *. destruct l', s; trivial; discriminate.
Qed.

Lemma free_loop_quiet snapshot : forall w keep hard saved,
  quiet w (snd (free_loop w snapshot keep hard saved)).
Proof.
  induction snapshot as [|c rest IH]; intros w keep hard saved; simpl.
  - apply quiet_refl.
  - pose proof (isAvailable_quiet w c) as Hq.
    destruct (isAvailable w c) as [p w1]. simpl in Hq.
    destruct (_ && _ && _)%bool.
    + eapply quiet_trans; [exact Hq | apply IH].
    + eapply quiet_trans; [exact Hq|].
      eapply quiet_trans; [apply release_quiet | apply IH].
Qed.

Lemma free_spec w keep hard :
  steady w (free w keep hard) /\ (capacity w -> capacity (free w keep hard)) /\
  (length (pool (self (free w keep hard))) <= length (pool (self w)))%nat.
Proof.
  unfold free.
  pose proof (free_loop_quiet (pool (self w)) w (or_zero keep) hard 0) as Hq.
  destruct (free_loop w (pool (self w)) (or_zero keep) hard 0) as [saved w1].
  simpl in Hq. split; [|split].
  - eapply steady_trans; [apply quiet_steady; exact Hq | now apply log_steady].
  - intros Hc. apply (quiet_capacity _ _ Hq) in Hc. exact Hc.
  - apply (q_pool _ _ Hq).
Qed.

(** [free(0, true)] empties the pool. *)
Lemma remove1_count c l x :
  count_occ Nat.eq_dec (remove1 c l) x =
  if Nat.eqb x c then pred (count_occ Nat.eq_dec l x) else count_occ Nat.eq_dec l x.
Proof.
  induction l as [|y l IH]; [simpl; now destruct (Nat.eqb x c)|].
  rewrite remove1_cons. destruct (Nat.eqb_spec y c) as [->|Hy].
  - simpl. destruct (Nat.eq_dec c x) as [->|Hx].
    + now rewrite Nat.eqb_refl.
    + destruct (Nat.eqb_spec x c); [congruence | reflexivity].
  - simpl. rewrite IH. destruct (Nat.eq_dec y x) as [->|Hx].
    + destruct (Nat.eqb_spec x c); [congruence | reflexivity].
    + reflexivity.
Qed.

Lemma fits_remove1 c l snapshot : fits l snapshot -> fits (remove1 c l) snapshot.
Proof.
  intros H x. specialize (H x). rewrite remove1_count.
  destruct (Nat.eqb x c); lia.
Qed.

Lemma fits_next c l rest : fits l (c :: rest) -> fits (remove1 c l) rest.
Proof.
  intros H x. specialize (H x). rewrite remove1_count. simpl in H.
  destruct (Nat.eq_dec c x) as [->|Hx].
  - rewrite Nat.eqb_refl. lia.
  - destruct (Nat.eqb_spec x c); [congruence | lia].
Qed.

Lemma free_loop_drains snapshot : forall w hard saved,
  fits (pool (self w)) snapshot ->
  pool (self (snd (free_loop w snapshot 0 hard saved))) = [].
Proof.
  induction snapshot as [|c rest IH]; intros w hard saved Hf; simpl.
  - apply (count_occ_inv_nil Nat.eq_dec). intros x. specialize (Hf x).
    simpl in Hf. lia.
  - pose proof (isAvailable_pool w c) as Hp.
    destruct (isAvailable w c) as [p w1]. simpl in Hp. simpl.
    apply IH. rewrite release_pool. apply fits_next.
    destruct Hp as [-> | ->]; [exact Hf | now apply fits_remove1].
Qed.

Lemma end_spec w hard :
  pool (self (end_ w hard)) = [] /\
  ending (self (end_ w hard)) = ending (self w) ++ [Z.of_nat (length (pool (self w)))] /\
  closes (trace (end_ w hard)) = closes (trace w) /\
  ticks (end_ w hard) = S (ticks w) /\
  limit (self (end_ w hard)) = limit (self w) /\
  pending (self (end_ w hard)) = pending (self w).
Proof.
  unfold end_, free. cbn [or_zero].
  pose proof (free_loop_quiet (pool (self w)) w 0 true 0) as Hq.
  pose proof (free_loop_drains (pool (self w)) w true 0 (fun x => Nat.le_refl _)) as Hd.
  destruct (free_loop w (pool (self w)) 0 true 0) as [saved w1].
  simpl in Hq, Hd. simpl. rewrite closes_app. simpl.
  rewrite (q_ending _ _ Hq), (quiet_closes _ _ Hq), (q_ticks _ _ Hq),
    (q_limit _ _ Hq), (q_pending _ _ Hq).
  repeat split; trivial; lia.
Qed.

(** ** One action at a time *)

Lemma step_steady w a w' : step w a = Some w' -> is_end a = false -> steady w w'.
Proof.
  destruct a; simpl; intros H He; try discriminate.
  - injection H as <-. now apply steady_same.
  - injection H as <-. now apply steady_same.
  - now apply allocate_steady in H.
  - destruct (lookup k (requests w)) as [fn|]; [|discriminate].
    injection H as <-. eapply steady_trans; [|apply generate_steady].
    now apply steady_same.
  - now apply emit_spec in H.
  - injection H as <-. apply quiet_steady, release_quiet.
  - injection H as <-. apply free_spec.
  - destruct (ticks w); [discriminate|]. injection H as <-.
    eapply steady_trans; [|now apply log_steady]. now apply steady_same.
  - injection H as <-. now apply steady_same.
Qed.

Lemma step_capacity w a w' :
  step w a = Some w' -> is_generate a = false -> capacity w -> capacity w'.
Proof.
  destruct a; simpl; intros H Hg Hc; try discriminate.
  - injection H as <-. exact Hc.
  - injection H as <-. exact Hc.
  - now apply (allocate_capacity _ _ _ _ H).
  - now apply (emit_spec _ _ _ _ _ H).
  - injection H as <-. apply (quiet_capacity w); [apply release_quiet | exact Hc].
  - injection H as <-. now apply free_spec.
  - injection H as <-. unfold capacity.
    destruct (end_spec w hard) as (-> & _ & _ & _ & -> & ->).
    unfold capacity in Hc. simpl. lia.
  - destruct (ticks w); [discriminate|]. injection H as <-. exact Hc.
  - injection H as <-. exact Hc.
Qed.


(** ** The capacity of the pool *)

(** As long as no factory that takes a callback calls back, the pool and the
    pending connections together stay within [limit]: [allocate] counts a
    connection as pending in the same turn in which it tests the limit. *)
Lemma run_capacity actions : forall w w',
  forallb (fun a => negb (is_generate a)) actions = true ->
  run w actions = Some w' -> capacity w -> capacity w'.
Proof.
  induction actions as [|a actions IH]; intros w w' Hf H Hc; simpl in H.
  - injection H as <-. exact Hc.
  - simpl in Hf. apply andb_prop in Hf. destruct Hf as [Ha Hf].
    destruct (step w a) as [w1|] eqn:E; [|discriminate].
    apply (IH w1 w' Hf H). apply (step_capacity _ _ _ E); [|exact Hc].
    now destruct (is_generate a).
Qed.

Lemma boot_capacity limit builder heap draws :
  (forall n, limit = Some n -> 0 <= n) ->
  capacity (boot limit builder heap draws).
Proof.
  intros H. unfold capacity. simpl. destruct limit as [n|]; [|lia].
  specialize (H n eq_refl). destruct (Z.eqb_spec n 0); lia.
Qed.

(** Every world that a manager of limit at least 0 reaches without a reply of
    a callback-style factory respects the capacity bound. *)
Lemma capacity_of_reachable_worlds limit builder heap draws actions w :
  (forall n, limit = Some n -> 0 <= n) ->
  forallb (fun a => negb (is_generate a)) actions = true ->
  run (boot limit builder heap draws) actions = Some w ->
  capacity w.
Proof.
  intros Hl Hf H. apply (run_capacity _ _ _ Hf H). now apply boot_capacity.
Qed.

Lemma generated_app t u : generated (t ++ u) = (generated t + generated u)%nat.
Proof.
  induction t as [|e t IH]; [reflexivity|].
  destruct e; simpl; rewrite IH; reflexivity.
Qed.

Lemma quiet_generated w w' : quiet w w' -> generated (trace w') = generated (trace w).
Proof.
  intros Hq. destruct (q_trace _ _ Hq) as (t & -> & Ht).
  rewrite generated_app. replace (generated t) with 0%nat; [lia|].
  induction t as [|e t IH]; [reflexivity|]. simpl in Ht.
  apply andb_prop in Ht. destruct Ht as [He Ht]. destruct e; try discriminate.
  now apply IH.
Qed.

(** [allocate] calls the generator only when, after the scan, the pool and
    the pending connections together are below [limit]. *)
Lemma allocate_gate w fn made w' :
  allocate w fn made = Some w' ->
  generated (trace w') <> generated (trace w) ->
  exists w1,
    quiet (attempt w) w1 /\
    Z.of_nat (length (pool (self w1))) + pending (self w1) < limit (self w1).
Proof.
  intros Ha Hg. destruct (generator (self w)) as [builder|] eqn:E.
  - destruct (allocate_cases w fn made builder E) as (w1 & Hq & H).
    exists w1. split; [exact Hq|].
    pose proof (quiet_generated _ _ Hq) as G. cbn [attempt trace set_self set_fresh] in G.
    destruct H as [(c & _ & H)|(ps & _ & [(Hlt & _)|(_ & H)])];
      [|exact Hlt|]; rewrite H in Ha; injection Ha as <-; exfalso; apply Hg.
    + cbn [log trace]. rewrite generated_app, G. simpl. lia.
    + destruct (semi_valid_log w1 fn ps) as (e & -> & He).
      cbn [log trace]. rewrite generated_app, G.
      destruct e; try discriminate; simpl; lia.
  - unfold allocate in Ha. rewrite E in Ha. injection Ha as <-.
    exfalso. apply Hg. cbn [log trace]. rewrite generated_app. simpl. lia.
Qed.

(** C1.  With a generator that takes a callback, [pending] is incremented
    only when the generator calls back, not when [allocate] tests the limit.
    A manager of limit 1 on which [allocate] is called twice before the
    factory has answered calls the factory twice; after the two answers
    [pending] is 2 although [limit] is 1, and after the two connections have
    connected the pool holds 2 connections. *)
Theorem async_factory_overshoots_limit :
  option_map (fun w => (limit (self w), pool (self w), pending (self w), trace w))
    (run (boot (Some 1) (Some async_factory) sockets (fun _ => 0))
       [A_allocate 11%nat None; A_allocate 12%nat None;
        A_generate 0%nat None (Some 1%nat); A_generate 1%nat None (Some 2%nat)])
  = Some (1, [], 2, [Generator_called; Generator_called]) /\
  option_map (fun w => (limit (self w), pool (self w), pending (self w)))
    (run (boot (Some 1) (Some async_factory) sockets (fun _ => 0))
       [A_allocate 11%nat None; A_allocate 12%nat None;
        A_generate 0%nat None (Some 1%nat); A_generate 1%nat None (Some 2%nat);
        A_emit 1%nat sig_connect None; A_emit 2%nat sig_connect None])
  = Some (1, [1; 2]%nat, 0) /\
  ~ capacity
      (after (boot (Some 1) (Some async_factory) sockets (fun _ => 0))
         [A_allocate 11%nat None; A_allocate 12%nat None;
          A_generate 0%nat None (Some 1%nat); A_generate 1%nat None (Some 2%nat)]).
Proof.
  split; [vm_compute; reflexivity|]. split; [vm_compute; reflexivity|].
  vm_compute. intros H. apply H. reflexivity.
Qed.

(** C2.  A fresh connection that signals [error] is pushed into the pool all
    the same: [either] does not look at its argument before
    [self.pool.push(this)].  Here connection 1, made by a factory without
    callback, fails to connect: the allocation completes with the error, and
    the pool holds the connection. *)
Theorem failed_connection_enters_pool :
  option_map (fun w => (pool (self w), pending (self w), trace w))
    (run (boot None (Some sync_factory) sockets (fun _ => 0))
       [A_on_error; A_allocate 11%nat (Some 1%nat);
        A_emit 1%nat sig_error (Some "ECONNREFUSED"%string)])
  = Some ([1%nat], 0,
          [Generator_called; Transport 1%nat m_destroySoon;
           Emitted_error "ECONNREFUSED"%string;
           Called 11%nat (Some "ECONNREFUSED"%string) (Some 1%nat)]).
Proof.
  vm_compute. reflexivity.
Qed.

(** The half of C2 that holds: on [connect] the connection enters the pool,
    [pending] goes down by one and the allocation completes with the
    connection; and what [either] does in general. *)
Lemma connected_connection_enters_pool :
  option_map (fun w => (pool (self w), pending (self w), trace w))
    (run (boot None (Some sync_factory) sockets (fun _ => 0))
       [A_allocate 11%nat (Some 1%nat); A_emit 1%nat sig_connect None])
  = Some ([1%nat], 0, [Generator_called; Called 11%nat None (Some 1%nat)]).
Proof.
  vm_compute. reflexivity.
Qed.

Lemma either_spec w c k fn arg :
  exists w',
    run_listener w c (either k fn) arg = Some w' /\
    pool (self w') = pool (self w) ++ [c] /\
    pending (self w') = pending (self w) - 1 /\
    trace w' = trace w ++ [Called fn arg (Some c)].
Proof.
  eexists. split; [reflexivity|]. simpl. auto.
Qed.

(** Without a listener for ['error'] on the manager, [regenerate] throws
    before [either] runs, and the allocation does not complete at all. *)
Lemma failed_connection_unhandled :
  run (boot None (Some sync_factory) sockets (fun _ => 0))
    [A_allocate 11%nat (Some 1%nat);
     A_emit 1%nat sig_error (Some "ECONNREFUSED"%string)]
  = None.
Proof.
  vm_compute. reflexivity.
Qed.

(** A connection that is being created and times out is closed by
    [regenerate], but [pending] keeps counting it. *)
Lemma timed_out_connection_stays_pending :
  option_map (fun w => (pool (self w), pending (self w), trace w))
    (run (boot None (Some sync_factory) sockets (fun _ => 0))
       [A_allocate 11%nat (Some 1%nat); A_emit 1%nat sig_timeout None])
  = Some ([], 1,
          [Generator_called; Transport 1%nat m_destroySoon;
           Emitted_connection_close 1%nat]).
Proof.
  vm_compute. reflexivity.
Qed.

(** ** Scenarios *)

(** Limit 1 and an empty pool: the first [allocate] creates a connection; a
    second one, before the first connection has connected, finds the limit
    reached and nothing to fall back on. *)
Lemma second_allocate_finds_pool_full :
  option_map (fun w => (pool (self w), pending (self w), calls (trace w)))
    (run (boot (Some 1) (Some sync_factory) sockets (fun _ => 0))
       [A_allocate 11%nat (Some 1%nat); A_allocate 12%nat (Some 2%nat)])
  = Some ([], 1, [Called 12%nat (Some pool_full) None]).
Proof.
  vm_compute. reflexivity.
Qed.

(** Limit reached with one connection that has 30 writes queued: it scores 70
    and is handed out. *)
Lemma busy_connection_is_handed_out :
  option_map (fun w => calls (trace w)) (allocate crowded 21%nat None)
  = Some (calls (trace crowded) ++ [Called 21%nat None (Some 3%nat)]).
Proof.
  vm_compute. reflexivity.
Qed.

(** The same with 50 writes queued (connection 7): it scores 50, and the pool
    is full. *)
Lemma backlogged_connection_is_not_handed_out :
  option_map (fun w => calls (trace w))
    (run (boot (Some 1) (Some sync_factory) sockets (fun _ => 0))
       [A_allocate 17%nat (Some 7%nat); A_emit 7%nat sig_connect None;
        A_allocate 21%nat None])
  = Some [Called 17%nat None (Some 7%nat); Called 21%nat (Some pool_full) None].
Proof.
  vm_compute. reflexivity.
Qed.

(** [free(1, false)] on the connections 1, 3 and 7, of which only 1 scores
    100, keeps 1, ends the two others and reports [(1, 1)]. *)
Lemma free_keeps_one :
  option_map (fun w => (pool (self w), trace w))
    (run (boot None (Some sync_factory) sockets (fun _ => 0))
       [A_allocate 11%nat (Some 1%nat); A_allocate 13%nat (Some 3%nat);
        A_allocate 17%nat (Some 7%nat);
        A_emit 1%nat sig_connect None; A_emit 3%nat sig_connect None;
        A_emit 7%nat sig_connect None; A_free (Some 1) false])
  = Some ([1%nat],
          [Generator_called; Generator_called; Generator_called;
           Called 11%nat None (Some 1%nat); Called 13%nat None (Some 3%nat);
           Called 17%nat None (Some 7%nat);
           Transport 3%nat m_end; Transport 7%nat m_end; Emitted_free 1 1]).
Proof.
  vm_compute. reflexivity.
Qed.

(** ** Shutdown *)





(** The interleaving matters: when a connection that was still being created
    at the first [end] connects before the second [end], the second listener
    starts from 1 as well, and one ['connection:close'] makes both listeners
    emit ['close']. *)
Lemma late_connection_closes_twice :
  option_map (fun w => (closes (trace w), ending (self w)))
    (run (boot None (Some sync_factory) sockets (fun _ => 0))
       [A_allocate 13%nat (Some 3%nat); A_emit 3%nat sig_connect None;
        A_allocate 12%nat (Some 2%nat); A_end true;
        A_emit 2%nat sig_connect None; A_end true;
        A_emit 3%nat sig_close None])
  = Some (2%nat, []).
Proof.
  vm_compute. reflexivity.
Qed.

Lemma run_steady actions : forall w w',
  forallb (fun a => negb (is_end a)) actions = true ->
  run w actions = Some w' -> steady w w'.
Proof.
  induction actions as [|a actions IH]; intros w w' Hf H; simpl in H.
  - injection H as <-. apply steady_refl.
  - simpl in Hf. apply andb_prop in Hf. destruct Hf as [Ha Hf].
    destruct (step w a) as [w1|] eqn:E; [|discriminate].
    eapply steady_trans; [|apply (IH w1 w' Hf H)].
    apply (step_steady _ _ _ E). now destruct (is_end a).
Qed.

(** C10.  When [end] is called on an empty pool (and no earlier shutdown is
    still counting down), the countdown of its listener starts at 0: whatever
    happens afterwards, short of another call of [end], no ['close'] is
    emitted and no countdown is above 0, while the ['end'] notification is
    queued and emitted by the next tick. *)
Theorem end_of_empty_pool_never_closes w hard actions w' :
  pool (self w) = [] ->
  positives (ending (self w)) = 0%nat ->
  forallb (fun a => negb (is_end a)) actions = true ->
  run (end_ w hard) actions = Some w' ->
  ending (self (end_ w hard)) = ending (self w) ++ [0] /\
  closes (trace w') = closes (trace w) /\
  positives (ending (self w')) = 0%nat /\
  ticks (end_ w hard) = S (ticks w) /\
  option_map trace (step (end_ w hard) A_tick)
    = Some (trace (end_ w hard) ++ [Emitted_end]).
Proof.
  intros Hp He Hf H.
  destruct (end_spec w hard) as (_ & Hend & Hc & Ht & _).
  rewrite Hp in Hend. change (Z.of_nat (length (@nil ref))) with 0 in Hend.
  destruct (run_steady _ _ _ Hf H) as [S1 S2].
  unfold countdown in S1. rewrite Hend, positives_app, He, Hc in S1.
  rewrite Hend, positives_app, He in S2.
  change (positives [0]) with 0%nat in S1, S2.
  split; [exact Hend|]. split; [lia|]. split; [lia|]. split; [exact Ht|].
  cbv beta iota delta [step]. rewrite Ht. reflexivity.
Qed.

Lemma end_of_empty_pool_never_closes_witness :
  run (end_ unconfigured true)
    [A_factory sync_factory; A_tick; A_allocate 11%nat (Some 1%nat);
     A_emit 1%nat sig_close None; A_emit 2%nat sig_close None]
  = Some (after (end_ unconfigured true)
            [A_factory sync_factory; A_tick; A_allocate 11%nat (Some 1%nat);
             A_emit 1%nat sig_close None; A_emit 2%nat sig_close None]) /\
  ending (self (end_ unconfigured true)) = ending (self unconfigured) ++ [0] /\
  closes (trace (after (end_ unconfigured true)
            [A_factory sync_factory; A_tick; A_allocate 11%nat (Some 1%nat);
             A_emit 1%nat sig_close None; A_emit 2%nat sig_close None]))
    = closes (trace unconfigured) /\
  positives (ending (self (after (end_ unconfigured true)
            [A_factory sync_factory; A_tick; A_allocate 11%nat (Some 1%nat);
             A_emit 1%nat sig_close None; A_emit 2%nat sig_close None]))) = 0%nat /\
  ticks (end_ unconfigured true) = S (ticks unconfigured) /\
  option_map trace (step (end_ unconfigured true) A_tick)
    = Some (trace (end_ unconfigured true) ++ [Emitted_end]).
Proof.
  assert (R : run (end_ unconfigured true)
    [A_factory sync_factory; A_tick; A_allocate 11%nat (Some 1%nat);
     A_emit 1%nat sig_close None; A_emit 2%nat sig_close None]
  = Some (after (end_ unconfigured true)
            [A_factory sync_factory; A_tick; A_allocate 11%nat (Some 1%nat);
             A_emit 1%nat sig_close None; A_emit 2%nat sig_close None]))
    by (vm_compute; reflexivity).
  split; [exact R|].
  apply (end_of_empty_pool_never_closes unconfigured true
           [A_factory sync_factory; A_tick; A_allocate 11%nat (Some 1%nat);
            A_emit 1%nat sig_close None; A_emit 2%nat sig_close None]).
  - reflexivity.
  - reflexivity.
  - reflexivity.
  - exact R.
Defined.

(** * Further properties *)

(** ** [allocate] *)

(** X1.  [allocate] never throws, and a call has exactly one outcome: it
    calls [fn] once, at once, and changes neither [pending] nor any listener;
    or it calls nothing yet and waits for the connection the generator
    returned (one more pending, one [regenerate] and one [either] attached);
    or it calls nothing yet and leaves one call of the factory outstanding. *)
Theorem allocate_has_one_outcome w fn made :
  exists w',
    allocate w fn made = Some w' /\
    ((exists err conn,
         calls (trace w') = calls (trace w) ++ [Called fn err conn] /\
         pending (self w') = pending (self w) /\
         requests w' = requests w /\ listeners w' = listeners w) \/
     (exists c,
         made = Some c /\
         calls (trace w') = calls (trace w) /\
         pending (self w') = pending (self w) + 1 /\
         requests w' = requests w /\
         listeners w' =
           listeners w ++ [(c, regenerate (S (fresh w))); (c, either (fresh w) fn)]) \/
     (calls (trace w') = calls (trace w) /\
      pending (self w') = pending (self w) /\
      listeners w' = listeners w /\
      requests w' = requests w ++ [(fresh w, fn)])).
Proof.
  destruct (generator (self w)) as [builder|] eqn:E.
  - destruct (allocate_cases w fn made builder E) as (w1 & Hq & H).
    pose proof (quiet_calls _ _ Hq) as Hc.
    pose proof (q_pending _ _ Hq) as Hp. pose proof (q_requests _ _ Hq) as Hr.
    pose proof (q_listeners _ _ Hq) as Hl. pose proof (q_fresh _ _ Hq) as Hf.
    cbn [attempt trace self pending requests listeners fresh
           set_self set_fresh set_allocations] in Hc, Hp, Hr, Hl, Hf.
    destruct H as [(c & _ & ->)|(ps & _ & [(_ & [(_ & [(c & Hm & ->)|(_ & ->)])
                                                   |(_ & ->)])|(_ & ->)])];
      eexists; (split; [reflexivity|]).
    + left. exists None, (Some c). cbn [log trace self pending requests listeners].
      rewrite calls_app, Hc. repeat split; trivial.
    + right. left. exists c.
      cbn [await on_either listen log trace self pending requests listeners fresh
             set_self set_pending set_listeners set_fresh].
      rewrite calls_app, Hc, Hp, Hr, Hl, Hf, <- app_assoc.
      repeat split; trivial. apply app_nil_r.
    + left.
      destruct (semi_valid_spec (log w1 Generator_called) fn ps)
        as [(b & _ & _ & _ & ->)|(_ & ->)];
        [exists None, (Some (connection b)) | exists (Some pool_full), None];
        cbn [log trace self pending requests listeners];
        rewrite !calls_app, Hc; cbn [calls filter is_call]; rewrite app_nil_r;
        repeat split; trivial.
    + right. right.
      cbn [log trace self pending requests listeners set_requests].
      rewrite calls_app, Hc, Hr. repeat split; trivial. apply app_nil_r.
    + left.
      destruct (semi_valid_spec w1 fn ps) as [(b & _ & _ & _ & ->)|(_ & ->)];
        [exists None, (Some (connection b)) | exists (Some pool_full), None];
        cbn [log trace self pending requests listeners];
        rewrite calls_app, Hc; repeat split; trivial.
  - unfold allocate. rewrite E. eexists. split; [reflexivity|].
    left. exists (Some no_factory), None. cbn [log trace self pending requests listeners].
    rewrite calls_app. repeat split; trivial.
Qed.

Lemma isAvailable_doomed w c :
  (doomed (heap w c) = true ->
   isAvailable w c = (0, snd (remove w c))) /\
  (doomed (heap w c) = false ->
   pool (self (snd (isAvailable w c))) = pool (self w)).
Proof.
  unfold doomed, certain, isAvailable.
  destruct (writable (heap w c) && (writes (heap w c) =? 0))%bool; simpl negb.
  - split; [discriminate | reflexivity].
  - rewrite Bool.andb_true_l.
    destruct (String.eqb _ "closed" || destroyed _)%bool;
      (split; [try reflexivity; discriminate|]); try discriminate.
    intros _.
    repeat match goal with
           | |- context [if ?b then _ else _] => destruct b
           end; reflexivity.
Qed.

(** What the scan keeps: a connection it does not evict stays in the pool,
    and a connection it evicts is queued with probability 0. *)
Lemma scan_resident i : forall w acc,
  (forall e, In e acc -> doomed (heap w (connection e)) = false ->
             In (connection e) (pool (self w))) ->
  (forall e, In e acc -> doomed (heap w (connection e)) = true ->
             probability e = 0) ->
  match scan w i acc with
  | Found c w' => In c (pool (self w')) /\ forall x, In x (pool (self w')) -> In x (pool (self w))
  | Queued ps w' =>
      (forall e, In e ps -> probability e <> 0 -> In (connection e) (pool (self w'))) /\
      forall x, In x (pool (self w')) -> In x (pool (self w))
  | Thrown => True
  end.
Proof.
  induction i as [|i IH]; intros w acc H1 H2; simpl.
  - split; [|trivial]. intros e He Hp. apply H1; [exact He|].
    destruct (doomed (heap w (connection e))) eqn:D; [|reflexivity].
    now apply H2 in D.
  - destruct (nth_error (pool (self w)) i) as [c|] eqn:Hn; [|exact I].
    pose proof (isAvailable_quiet w c) as Hq.
    pose proof (isAvailable_pool w c) as Hp.
    pose proof (isAvailable_subset w c) as Hs.
    destruct (isAvailable_doomed w c) as [Dt Df].
    destruct (isAvailable w c) as [p w1] eqn:E. simpl in Hq, Hp, Hs, Df.
    apply nth_error_In in Hn.
    destruct (Z.eqb_spec p 100) as [->|Hp100].
    + split; [|exact Hs].
      destruct (doomed (heap w c)) eqn:D.
      * specialize (Dt eq_refl). congruence.
      * rewrite Df by reflexivity. exact Hn.
    + specialize (IH w1 (acc ++ [{| probability := p; connection := c |}])).
      rewrite (q_heap _ _ Hq) in IH.
      assert (G1 : forall e, In e (acc ++ [{| probability := p; connection := c |}]) ->
                     doomed (heap w (connection e)) = false ->
                     In (connection e) (pool (self w1))).
      { intros e He D. apply in_app_iff in He. destruct He as [He|[<-|[]]].
        - specialize (H1 e He D). destruct (doomed (heap w c)) eqn:Dc.
          + destruct Hp as [-> | ->]; [exact H1|].
            apply remove1_other; [|exact H1]. intros Heq.
            rewrite Heq in D. congruence.
          + rewrite (Df eq_refl). exact H1.
        - simpl in *. rewrite Df by exact D. exact Hn. }
      assert (G2 : forall e, In e (acc ++ [{| probability := p; connection := c |}]) ->
                     doomed (heap w (connection e)) = true -> probability e = 0).
      { intros e He D. apply in_app_iff in He. destruct He as [He|[<-|[]]].
        - now apply H2.
        - simpl in *. specialize (Dt D). congruence. }
      specialize (IH G1 G2).
      destruct (scan w1 i _) as [c' w'|ps w'|]; [| |exact I];
        destruct IH as [I1 I2]; (split; [exact I1|]); intros x Hx; auto.
Qed.

Lemma snoc_inj (t : list Effect) x y : t ++ [x] = t ++ [y] -> x = y.
Proof.
  intros H. apply app_inv_head in H. now injection H.
Qed.

Lemma snoc_fresh (t : list Effect) y : t <> t ++ [y].
Proof.
  intros H. apply (f_equal (@length Effect)) in H.
  rewrite length_app in H. simpl in H. lia.
Qed.

(** X2.  A connection that [allocate] hands to the callback at once comes
    without an error, was in the pool when [allocate] was called and is still
    in the pool when it returns: the scan never hands out a connection that
    it has just evicted. *)
Theorem allocate_hands_out_residents w fn made w' err c :
  allocate w fn made = Some w' ->
  calls (trace w') = calls (trace w) ++ [Called fn err (Some c)] ->
  err = None /\ In c (pool (self w)) /\ In c (pool (self w')).
Proof.
  intros Ha Hc. destruct (generator (self w)) as [builder|] eqn:E.
  - destruct (allocate_cases w fn made builder E) as (w1 & Hq & H).
    pose proof (quiet_calls _ _ Hq) as Hq'. cbn [attempt trace set_self set_fresh] in Hq'.
    pose proof (scan_resident (length (pool (self w))) (attempt w) []
                  (fun e (He : In e []) => False_ind _ He)
                  (fun e (He : In e []) => False_ind _ He)) as Hs.
    assert (settle : forall w2 ps,
               (forall e, In e ps -> probability e <> 0 ->
                          In (connection e) (pool (self w1))) ->
               (forall x, In x (pool (self w1)) -> In x (pool (self w))) ->
               pool (self w2) = pool (self w1) ->
               calls (trace w2) = calls (trace w) ->
               calls (trace (semi_valid w2 fn ps))
                 = calls (trace w) ++ [Called fn err (Some c)] ->
               err = None /\ In c (pool (self w)) /\
               In c (pool (self (semi_valid w2 fn ps)))).
    { intros w2 ps I1 I2 Hp2 Hc2 Hcs. rewrite semi_valid_self.
      destruct (semi_valid_spec w2 fn ps) as [(b & Hb & _ & H60 & Hv)|(_ & Hv)];
        rewrite Hv in Hcs; cbn [log trace] in Hcs; rewrite calls_app, Hc2 in Hcs;
        apply snoc_inj in Hcs; [|discriminate].
      injection Hcs as <- <-. rewrite Hp2.
      assert (In (connection b) (pool (self w1))) by (apply I1; [exact Hb | lia]).
      auto. }
    destruct H as [(c' & Hsc & H)|(ps & Hsc & [(_ & [(_ & [(c' & _ & H)|(_ & H)])
                                                      |(_ & H)])|(_ & H)])];
      rewrite Hsc in Hs; destruct Hs as [I1 I2];
      rewrite H in Ha; injection Ha as <-.
    + cbn [log trace] in Hc. rewrite calls_app, Hq' in Hc. apply snoc_inj in Hc.
      injection Hc as <- <-. cbn [log self]. auto.
    + exfalso. revert Hc.
      cbn [await on_either listen log trace set_self set_pending set_listeners set_fresh].
      rewrite calls_app, Hq'. cbn [calls filter is_call]. rewrite app_nil_r.
      apply snoc_fresh.
    + apply (settle (log w1 Generator_called) ps); trivial.
      cbn [log trace]. rewrite calls_app, Hq'. apply app_nil_r.
    + exfalso. revert Hc. cbn [log trace set_requests].
      rewrite calls_app, Hq'. cbn [calls filter is_call]. rewrite app_nil_r.
      apply snoc_fresh.
    + apply (settle w1 ps); trivial.
  - unfold allocate in Ha. rewrite E in Ha. injection Ha as <-.
    cbn [log trace] in Hc. rewrite calls_app in Hc. apply snoc_inj in Hc.
    discriminate.
Qed.

Lemma allocate_hands_out_residents_witness :
  None = (@None Error) /\ In 2%nat (pool (self warm)) /\
  In 2%nat (pool (self (after warm [A_allocate 21%nat None]))).
Proof.
  apply (allocate_hands_out_residents warm 21%nat None
           (after warm [A_allocate 21%nat None]) None 2%nat).
  - vm_compute. reflexivity.
  - vm_compute. reflexivity.
Defined.

(** ** [isAvailable] *)

(** X3.  For a connection whose queue of writes is not negative, the score is
    between 0 and 100, and it is 100 exactly when the connection is writable
    with nothing queued. *)
Theorem isAvailable_score_range w c :
  fair (draws w) ->
  0 <= writes (heap w c) ->
  0 <= fst (isAvailable w c) <= 100 /\
  (fst (isAvailable w c) = 100 <-> certain (heap w c) = true).
Proof.
  intros Hfair Hw. split; [|now apply isAvailable_100].
  unfold isAvailable.
  destruct (writable (heap w c) && (writes (heap w c) =? 0))%bool; [cbn [fst]; lia|].
  destruct (_ || destroyed _)%bool; [cbn [fst]; lia|].
  destruct (negb (writable (heap w c))); [cbn [fst]; lia|].
  destruct (String.eqb _ "opening"); [cbn [fst]; lia|].
  destruct (Z.ltb_spec (writes (heap w c)) 100); cbn [fst]; [lia|].
  specialize (Hfair (drawn w)). lia.
Qed.

Lemma isAvailable_score_range_witness :
  0 <= fst (isAvailable warm 3%nat) <= 100 /\
  (fst (isAvailable warm 3%nat) = 100 <-> certain (heap warm 3%nat) = true).
Proof.
  apply (isAvailable_score_range warm 3%nat).
  - intros n. vm_compute. split; [intros H; discriminate H | reflexivity].
  - vm_compute. intros H; discriminate H.
Defined.

(** X4.  The branches of the score below 100 for a connection that is
    neither closed nor destroyed: 0 when it is not writable (also while it is
    opening), 100 minus the queue for a writable connection with fewer than
    100 writes queued, and a draw when 100 or more are queued; in none of
    them is the world changed, except that a draw is consumed. *)
Theorem isAvailable_degrades w c :
  String.eqb (readyState (heap w c)) "closed" = false ->
  destroyed (heap w c) = false ->
  certain (heap w c) = false ->
  pool (self (snd (isAvailable w c))) = pool (self w) /\
  trace (snd (isAvailable w c)) = trace w /\
  (writable (heap w c) = false -> fst (isAvailable w c) = 0) /\
  (writable (heap w c) = true -> writes (heap w c) < 100 ->
     fst (isAvailable w c) = 100 - writes (heap w c) /\ snd (isAvailable w c) = w) /\
  (writable (heap w c) = true -> 100 <= writes (heap w c) ->
     fst (isAvailable w c) = draws w (drawn w) /\
     drawn (snd (isAvailable w c)) = S (drawn w)).
Proof.
  intros Hc Hd Hcert. unfold certain in Hcert. unfold isAvailable.
  rewrite Hcert, Hc, Hd. cbn [orb].
  destruct (writable (heap w c)) eqn:Hw; cbn [negb].
  - assert (Ho : String.eqb (readyState (heap w c)) "opening" = false).
    { unfold writable in Hw. destruct (String.eqb_spec (readyState (heap w c)) "opening")
        as [E|E]; [|reflexivity]. rewrite E in Hw. discriminate. }
    rewrite Ho. destruct (Z.ltb_spec (writes (heap w c)) 100).
    + cbn [fst snd]. repeat split; trivial; try discriminate; lia.
    + cbn [fst snd]. repeat split; trivial; try discriminate; lia.
  - cbn [fst snd]. repeat split; trivial; discriminate.
Qed.

Lemma isAvailable_degrades_witness :
  pool (self (snd (isAvailable warm 3%nat))) = pool (self warm) /\
  trace (snd (isAvailable warm 3%nat)) = trace warm /\
  (writable (heap warm 3%nat) = false -> fst (isAvailable warm 3%nat) = 0) /\
  (writable (heap warm 3%nat) = true -> writes (heap warm 3%nat) < 100 ->
     fst (isAvailable warm 3%nat) = 100 - writes (heap warm 3%nat) /\
     snd (isAvailable warm 3%nat) = warm) /\
  (writable (heap warm 3%nat) = true -> 100 <= writes (heap warm 3%nat) ->
     fst (isAvailable warm 3%nat) = draws warm (drawn warm) /\
     drawn (snd (isAvailable warm 3%nat)) = S (drawn warm)).
Proof.
  apply (isAvailable_degrades warm 3%nat); vm_compute; reflexivity.
Defined.

(** ** [release] *)

(** X5.  [release] touches no other connection: the other connections of
    the pool keep their entries and their order, exactly one entry of the
    released connection goes, and limit, pending, allocations, listeners and
    outstanding factory calls stay as they are. *)
Theorem release_spares_the_others w c hard :
  filter (fun x => negb (Nat.eqb x c)) (pool (self (snd (release w c hard))))
    = filter (fun x => negb (Nat.eqb x c)) (pool (self w)) /\
  count_occ Nat.eq_dec (pool (self (snd (release w c hard)))) c
    = pred (count_occ Nat.eq_dec (pool (self w)) c) /\
  limit (self (snd (release w c hard))) = limit (self w) /\
  pending (self (snd (release w c hard))) = pending (self w) /\
  allocations (self (snd (release w c hard))) = allocations (self w) /\
  listeners (snd (release w c hard)) = listeners w /\
  requests (snd (release w c hard)) = requests w.
Proof.
  pose proof (release_quiet w c hard) as Hq. rewrite release_pool.
  split; [apply filter_remove1; now rewrite Nat.eqb_refl|].
  split; [rewrite remove1_count; now rewrite Nat.eqb_refl|].
  destruct Hq. auto.
Qed.

(** X6.  In a pool that holds no connection twice, a second [release] of the
    same connection returns false and changes nothing. *)
Theorem release_twice w c hard hard' :
  NoDup (pool (self w)) ->
  release (snd (release w c hard)) c hard' = (false, snd (release w c hard)).
Proof.
  intros Hnd. apply release_absent. rewrite release_pool.
  now apply remove1_NoDup.
Qed.

Lemma release_twice_witness :
  release (snd (release warm 2%nat true)) 2%nat false
    = (false, snd (release warm 2%nat true)).
Proof.
  apply (release_twice warm 2%nat true false).
  vm_compute. repeat constructor; simpl; intuition discriminate.
Defined.

(** ** [free] *)

Lemma remove1_middle c kept rest :
  ~ In c kept -> remove1 c (kept ++ c :: rest) = kept ++ rest.
Proof.
  induction kept as [|x kept IH]; intros H.
  - simpl. rewrite remove1_cons, Nat.eqb_refl. reflexivity.
  - simpl. rewrite remove1_cons. destruct (Nat.eqb_spec x c) as [->|Hx].
    + exfalso. apply H. now left.
    + rewrite IH; [reflexivity|]. intros Hin. apply H. now right.
Qed.

Lemma free_loop_keeps snapshot : forall w kept keep hard saved,
  fair (draws w) ->
  pool (self w) = kept ++ snapshot ->
  NoDup (kept ++ snapshot) ->
  saved = Z.of_nat (length kept) ->
  pool (self (snd (free_loop w snapshot keep hard saved)))
    = kept ++ firstn (Z.to_nat (keep - saved))
                (filter (fun x => certain (heap w x)) snapshot) /\
  fst (free_loop w snapshot keep hard saved)
    = saved + Z.of_nat (length (firstn (Z.to_nat (keep - saved))
                                  (filter (fun x => certain (heap w x)) snapshot))).
Proof.
  induction snapshot as [|c rest IH]; intros w kept keep hard saved Hfair Hp Hnd Hs.
  - simpl. rewrite firstn_nil. simpl. split; [rewrite Hp; reflexivity | lia].
  - assert (Hck : ~ In c kept).
    { intros Hin. apply NoDup_remove_2 in Hnd. apply Hnd.
      apply in_app_iff. now left. }
    assert (Hcr : ~ In c (kept ++ rest)) by (now apply NoDup_remove_2 in Hnd).
    assert (Hnd' : NoDup (kept ++ rest)) by (now apply NoDup_remove_1 in Hnd).
    cbn [free_loop filter].
    destruct (certain (heap w c)) eqn:Hc.
    + rewrite (isAvailable_certain w c Hc). rewrite Z.eqb_refl, Bool.andb_true_r.
      destruct (negb (keep =? 0) && (saved <? keep))%bool eqn:Hk.
      * apply andb_prop in Hk. destruct Hk as [_ Hk]. apply Z.ltb_lt in Hk.
        destruct (IH w (kept ++ [c]) keep hard (saved + 1) Hfair) as [I1 I2].
        -- rewrite Hp, <- app_assoc. reflexivity.
        -- rewrite <- app_assoc. exact Hnd.
        -- rewrite length_app. simpl. lia.
        -- replace (Z.to_nat (keep - saved)) with (S (Z.to_nat (keep - (saved + 1))))
             by lia.
           cbn [firstn length]. rewrite I1, I2, <- app_assoc. split; [reflexivity | lia].
      * assert (Hz : Z.to_nat (keep - saved) = 0%nat).
        { destruct (Z.eqb_spec keep 0); simpl in Hk; [lia|].
          apply Z.ltb_ge in Hk. lia. }
        pose proof (release_quiet w c hard) as Hq.
        destruct (IH (snd (release w c hard)) kept keep hard saved) as [I1 I2]; trivial.
        -- now rewrite (q_draws _ _ Hq).
        -- rewrite release_pool, Hp. now apply remove1_middle.
        -- rewrite Hz in *. cbn [firstn length] in *. split; [exact I1 | exact I2].
    + pose proof (isAvailable_uncertain w c Hfair Hc) as Hne.
      pose proof (isAvailable_quiet w c) as Hq1.
      pose proof (isAvailable_pool w c) as Hp1.
      destruct (isAvailable w c) as [p w1]. cbn [fst snd] in Hne, Hq1, Hp1.
      apply Z.eqb_neq in Hne. rewrite Hne, Bool.andb_false_r.
      pose proof (release_quiet w1 c hard) as Hq2.
      destruct (IH (snd (release w1 c hard)) kept keep hard saved) as [I1 I2]; trivial.
      * now rewrite (q_draws _ _ Hq2), (q_draws _ _ Hq1).
      * rewrite release_pool. destruct Hp1 as [-> | ->]; rewrite Hp.
        -- now apply remove1_middle.
        -- rewrite remove1_middle by assumption. now apply remove1_notin.
      * rewrite (q_heap _ _ Hq2), (q_heap _ _ Hq1) in I1, I2. split; assumption.
Qed.

(** X7.  On a pool that holds no connection twice, [free(keep, hard)] leaves
    exactly the first [keep] connections, in pool order, that are writable
    with nothing queued; every other connection is released.  The ['free']
    event reports that number twice: as the number saved and as the size of
    the pool that is left. *)
Theorem free_keeps_first_certain w keep hard :
  fair (draws w) ->
  NoDup (pool (self w)) ->
  pool (self (free w keep hard))
    = firstn (Z.to_nat (or_zero keep))
        (filter (fun x => certain (heap w x)) (pool (self w))) /\
  exists t,
    trace (free w keep hard)
      = trace w ++ t ++
        [Emitted_free (Z.of_nat (length (pool (self (free w keep hard)))))
                      (Z.of_nat (length (pool (self (free w keep hard)))))] /\
    forallb is_transport t = true.
Proof.
  intros Hfair Hnd. unfold free.
  destruct (free_loop_keeps (pool (self w)) w [] (or_zero keep) hard 0 Hfair
              eq_refl Hnd eq_refl) as [I1 I2].
  pose proof (free_loop_quiet (pool (self w)) w (or_zero keep) hard 0) as Hq.
  destruct (free_loop w (pool (self w)) (or_zero keep) hard 0) as [saved w1].
  cbn [fst snd] in I1, I2, Hq. cbn [log self trace].
  rewrite Z.sub_0_r in I1, I2. simpl app in I1. split; [exact I1|].
  destruct (q_trace _ _ Hq) as (t & -> & Ht). exists t.
  rewrite <- app_assoc. split; [|exact Ht].
  rewrite I2, I1. reflexivity.
Qed.

Lemma free_keeps_first_certain_witness :
  pool (self (free warm (Some 1) false))
    = firstn (Z.to_nat (or_zero (Some 1)))
        (filter (fun x => certain (heap warm x)) (pool (self warm))) /\
  exists t,
    trace (free warm (Some 1) false)
      = trace warm ++ t ++
        [Emitted_free (Z.of_nat (length (pool (self (free warm (Some 1) false)))))
                      (Z.of_nat (length (pool (self (free warm (Some 1) false)))))] /\
    forallb is_transport t = true.
Proof.
  apply (free_keeps_first_certain warm (Some 1) false).
  - intros n. vm_compute. split; [intros H; discriminate H | reflexivity].
  - vm_compute. repeat constructor; simpl; intuition discriminate.
Defined.

(** ** The books of the manager *)

Lemma kept_refl w : kept_books w w.
Proof. unfold kept_books. repeat split; lia. Qed.

Lemma kept_trans w1 w2 w3 : kept_books w1 w2 -> kept_books w2 w3 -> kept_books w1 w3.
Proof.
  unfold kept_books. intros (A1 & A2 & A3 & A4) (B1 & B2 & B3 & B4).
  repeat split; try congruence; lia.
Qed.

Lemma kept_same w w' : self w' = self w -> kept_books w w'.
Proof.
  intros H. unfold kept_books, census. rewrite H. repeat split; lia.
Qed.

Lemma release_kept w c hard : kept_books w (snd (release w c hard)).
Proof.
  destruct (in_dec Nat.eq_dec c (pool (self w))) as [H|H].
  - destruct (release_present w c hard H) as (w' & -> & Hp & Hr & _ & Hq).
    cbn [snd]. unfold kept_books, census.
    rewrite Hp, Hr, (q_pending _ _ Hq), (q_allocations _ _ Hq), (q_generator _ _ Hq).
    apply remove1_length in H. repeat split; lia.
  - rewrite release_absent by assumption. apply kept_refl.
Qed.

Lemma isAvailable_kept w c : kept_books w (snd (isAvailable w c)).
Proof.
  unfold isAvailable.
  repeat match goal with
         | |- context [if ?b then _ else _] => destruct b
         end; cbn [snd]; try apply kept_refl.
  - apply release_kept.
  - now apply kept_same.
Qed.

Lemma scan_kept i : forall w acc,
  match scan w i acc with
  | Found _ w' | Queued _ w' => kept_books w w'
  | Thrown => True
  end.
Proof.
  induction i as [|i IH]; intros w acc; simpl.
  - apply kept_refl.
  - destruct (nth_error (pool (self w)) i) as [c|]; [|exact I].
    pose proof (isAvailable_kept w c) as Hk.
    destruct (isAvailable w c) as [p w1]. cbn [snd] in Hk.
    destruct (p =? 100); [exact Hk|].
    specialize (IH w1 (acc ++ [{| probability := p; connection := c |}])).
    destruct (scan w1 i _); trivial; eapply kept_trans; eassumption.
Qed.

Lemma free_loop_kept snapshot : forall w keep hard saved,
  kept_books w (snd (free_loop w snapshot keep hard saved)).
Proof.
  induction snapshot as [|c rest IH]; intros w keep hard saved; simpl.
  - apply kept_refl.
  - pose proof (isAvailable_kept w c) as Hk.
    destruct (isAvailable w c) as [p w1]. cbn [snd] in Hk.
    destruct (_ && _ && _)%bool.
    + eapply kept_trans; [exact Hk | apply IH].
    + eapply kept_trans; [exact Hk|].
      eapply kept_trans; [apply release_kept | apply IH].
Qed.

Lemma free_kept w keep hard : kept_books w (free w keep hard).
Proof.
  unfold free.
  pose proof (free_loop_kept (pool (self w)) w (or_zero keep) hard 0) as Hk.
  destruct (free_loop w (pool (self w)) (or_zero keep) hard 0) as [saved w1].
  cbn [snd] in Hk. eapply kept_trans; [exact Hk | now apply kept_same].
Qed.

Lemma run_ending_kept snapshot : forall w kept, kept_books w (run_ending w kept snapshot).
Proof.
  induction snapshot as [|size rest IH]; intros w kept; cbn [run_ending].
  - unfold kept_books, census. simpl. repeat split; lia.
  - destruct (size - 1 =? 0).
    + eapply kept_trans; [|apply IH]. now apply kept_same.
    + apply IH.
Qed.

Lemma run_listener_kept w c l arg w' :
  run_listener w c l arg = Some w' -> kept_books w w'.
Proof.
  destruct l as [k|k fn]; simpl; intros H.
  - assert (K : kept_books w
                  (removeListener (snd (remove (log w (Transport c m_destroySoon)) c))
                     c (regenerate k))).
    { eapply kept_trans; [|now apply kept_same].
      eapply kept_trans; [|apply release_kept]. now apply kept_same. }
    destruct arg as [err|].
    + unfold emit_error in H. destruct (on_error _); [|discriminate].
      injection H as <-. eapply kept_trans; [exact K | now apply kept_same].
    + injection H as <-. eapply kept_trans; [exact K|].
      unfold emit_connection_close.
      eapply kept_trans; [|apply run_ending_kept]. now apply kept_same.
  - injection H as <-. unfold kept_books, census. simpl.
    rewrite length_app. simpl. repeat split; lia.
Qed.

Lemma run_listeners_kept snapshot : forall w c arg w',
  run_listeners w c snapshot arg = Some w' -> kept_books w w'.
Proof.
  induction snapshot as [|l rest IH]; intros w c arg w' H; simpl in H.
  - injection H as <-. apply kept_refl.
  - destruct (run_listener w c l arg) as [w1|] eqn:E; [|discriminate].
    eapply kept_trans; [apply (run_listener_kept _ _ _ _ _ E) | apply (IH _ _ _ _ H)].
Qed.

Lemma allocate_books w fn made w' :
  allocate w fn made = Some w' ->
  (census w' = census w \/ census w' = census w + 1) /\
  releases (self w) <= releases (self w') /\
  allocations (self w') =
    allocations (self w) + match generator (self w) with Some _ => 1 | None => 0 end /\
  generator (self w') = generator (self w).
Proof.
  intros Ha. destruct (generator (self w)) as [builder|] eqn:E.
  - destruct (allocate_cases w fn made builder E) as (w1 & _ & H).
    assert (K : kept_books (attempt w) w1).
    { pose proof (scan_kept (length (pool (self w))) (attempt w) []) as Hk.
      destruct H as [(c & Hs & _)|(ps & Hs & _)]; now rewrite Hs in Hk. }
    destruct K as (K1 & K2 & K3 & K4).
    unfold census in *. cbn [attempt self set_self set_fresh set_allocations
      pool pending releases allocations generator] in K1, K2, K3, K4.
    destruct H as [(c & _ & H)|(ps & _ & [(_ & [(_ & [(c & _ & H)|(_ & H)])
                                                   |(_ & H)])|(_ & H)])];
      rewrite H in Ha; injection Ha as <-; rewrite ?semi_valid_self; simpl;
      rewrite K2, K4; repeat split; trivial; lia.
  - unfold allocate in Ha. rewrite E in Ha. injection Ha as <-.
    unfold census. simpl. rewrite E. repeat split; lia.
Qed.

(** X8.  The books of the manager.  Whatever happens, neither metric ever
    goes down, and the number of connections in the pool, pending or
    released never goes down either: it grows by one when [allocate] or the
    factory's answer puts a connection in the manager's charge, and by
    nothing else.  So every connection that leaves the pool is counted in
    [releases], and every connection that stops being pending has entered
    the pool. *)
Theorem step_keeps_the_books w a w' :
  step w a = Some w' ->
  releases (self w) <= releases (self w') /\
  allocations (self w) <= allocations (self w') /\
  (census w' = census w \/
   (census w' = census w + 1 /\ (is_allocate a || is_generate a)%bool = true)).
Proof.
  assert (from_kept : forall w w', kept_books w w' ->
            releases (self w) <= releases (self w') /\
            allocations (self w) <= allocations (self w') /\
            (census w' = census w \/
             (census w' = census w + 1 /\ (is_allocate a || is_generate a)%bool = true))).
  { intros v v' (K1 & K2 & K3 & _). split; [exact K3|]. split; [lia | now left]. }
  destruct a; simpl; intros H.
  - injection H as <-. unfold census. simpl.
    split; [lia|]. split; [lia | left; lia].
  - injection H as <-. apply from_kept. unfold kept_books, census. simpl.
    repeat split; lia.
  - destruct (allocate_books _ _ _ _ H) as (A1 & A2 & A3 & _).
    split; [exact A2|]. split; [destruct (generator (self w)); lia|].
    destruct A1 as [A1|A1]; [now left | right; split; [exact A1 | reflexivity]].
  - destruct (lookup k (requests w)) as [fn|]; [|discriminate].
    injection H as <-. unfold generate, census.
    destruct err as [e|]; [simpl; split; [lia|]; split; [lia | left; lia]|].
    destruct made as [c|]; simpl; (split; [lia|]); (split; [lia|]);
      [right; split; [lia | reflexivity] | left; lia].
  - unfold emit in H. apply from_kept. now apply run_listeners_kept in H.
  - injection H as <-. apply from_kept, release_kept.
  - injection H as <-. apply from_kept, free_kept.
  - injection H as <-. apply from_kept. unfold end_.
    eapply kept_trans;
      [apply free_kept | unfold kept_books, census; simpl; repeat split; lia].
  - destruct (ticks w); [discriminate|]. injection H as <-.
    apply from_kept. now apply kept_same.
  - injection H as <-. apply from_kept. now apply kept_same.
Qed.

Lemma step_keeps_the_books_witness :
  releases (self warm) <= releases (self (after warm [A_free (Some 1) false])) /\
  allocations (self warm) <= allocations (self (after warm [A_free (Some 1) false])) /\
  (census (after warm [A_free (Some 1) false]) = census warm \/
   (census (after warm [A_free (Some 1) false]) = census warm + 1 /\
    (is_allocate (A_free (Some 1) false) || is_generate (A_free (Some 1) false))%bool
      = true)).
Proof.
  apply (step_keeps_the_books warm (A_free (Some 1) false)).
  vm_compute. reflexivity.
Defined.

Lemma step_allocations w a w' :
  step w a = Some w' ->
  generator (self w) <> None ->
  generator (self w') <> None /\
  allocations (self w') = allocations (self w) + (if is_allocate a then 1 else 0).
Proof.
  assert (from_kept : forall v v', kept_books v v' -> generator (self v) <> None ->
            generator (self v') <> None /\ allocations (self v') = allocations (self v) + 0).
  { intros v v' (_ & K2 & _ & K4) Hg. rewrite K2, K4. split; [exact Hg | lia]. }
  destruct a; simpl; intros H Hg.
  - injection H as <-. simpl. split; [discriminate | lia].
  - injection H as <-. simpl. split; [exact Hg | lia].
  - destruct (allocate_books _ _ _ _ H) as (_ & _ & A3 & A4).
    rewrite A3, A4. split; [exact Hg|]. destruct (generator (self w)); [lia | congruence].
  - destruct (lookup k (requests w)) as [fn|]; [|discriminate].
    injection H as <-. unfold generate.
    destruct err as [e|]; [simpl; split; [exact Hg | lia]|].
    destruct made as [c|]; simpl; (split; [exact Hg | lia]).
  - unfold emit in H. apply run_listeners_kept in H. now apply from_kept.
  - injection H as <-. apply from_kept; [apply release_kept | exact Hg].
  - injection H as <-. apply from_kept; [apply free_kept | exact Hg].
  - injection H as <-. unfold end_. simpl.
    destruct (from_kept _ _ (free_kept w (Some 0) true) Hg) as [G1 G2].
    split; [exact G1 | exact G2].
  - destruct (ticks w); [discriminate|]. injection H as <-. simpl.
    split; [exact Hg | lia].
  - injection H as <-. simpl. split; [exact Hg | lia].
Qed.

(** X9.  Once a factory is registered it stays registered, and from then on
    [metrics.allocations] counts the calls of [allocate] exactly: whatever
    else happens in between, it has grown by the number of calls. *)
Theorem allocations_count_the_calls actions : forall w w',
  generator (self w) <> None ->
  run w actions = Some w' ->
  generator (self w') <> None /\
  allocations (self w')
    = allocations (self w) + Z.of_nat (length (filter is_allocate actions)).
Proof.
  induction actions as [|a actions IH]; intros w w' Hg H; simpl in H.
  - injection H as <-. simpl. split; [exact Hg | lia].
  - destruct (step w a) as [w1|] eqn:E; [|discriminate].
    destruct (step_allocations _ _ _ E Hg) as [G1 A1].
    destruct (IH _ _ G1 H) as [G2 A2]. split; [exact G2|].
    rewrite A2, A1. simpl. destruct (is_allocate a); simpl length; lia.
Qed.

Lemma allocations_count_the_calls_witness :
  generator (self (after warm [A_allocate 21%nat None; A_end true;
                               A_allocate 22%nat (Some 8%nat);
                               A_emit 8%nat sig_timeout None])) <> None /\
  allocations (self (after warm [A_allocate 21%nat None; A_end true;
                                 A_allocate 22%nat (Some 8%nat);
                                 A_emit 8%nat sig_timeout None]))
    = allocations (self warm)
      + Z.of_nat (length (filter is_allocate
                            [A_allocate 21%nat None; A_end true;
                             A_allocate 22%nat (Some 8%nat);
                             A_emit 8%nat sig_timeout None])).
Proof.
  apply (allocations_count_the_calls
           [A_allocate 21%nat None; A_end true; A_allocate 22%nat (Some 8%nat);
            A_emit 8%nat sig_timeout None] warm).
  - vm_compute. discriminate.
  - vm_compute. reflexivity.
Defined.

(** ** [free] and [end], once more *)

(** X10.  [end(hard)] empties the pool whatever it holds, counts every
    connection it held in [releases], queues the ['end'] notification and
    starts a countdown from the size the pool had.  It ignores its argument,
    and it does not touch the connections that are still being created:
    [pending] and their listeners stay, so such a connection can still enter
    the pool afterwards. *)
Theorem end_releases_everything w hard :
  pool (self (end_ w hard)) = [] /\
  releases (self (end_ w hard))
    = releases (self w) + Z.of_nat (length (pool (self w))) /\
  ending (self (end_ w hard))
    = ending (self w) ++ [Z.of_nat (length (pool (self w)))] /\
  ticks (end_ w hard) = S (ticks w) /\
  pending (self (end_ w hard)) = pending (self w) /\
  listeners (end_ w hard) = listeners w /\
  end_ w hard = end_ w (negb hard).
Proof.
  destruct (end_spec w hard) as (Hp & He & _ & Ht & _ & Hpe).
  split; [exact Hp|]. split; [|split; [exact He|split; [exact Ht|split; [exact Hpe|]]]].
  - assert (K : kept_books w (end_ w hard)).
    { unfold end_. eapply kept_trans;
        [apply free_kept | unfold kept_books, census; simpl; repeat split; lia]. }
    destruct K as (K1 & _). unfold census in K1. rewrite Hp, Hpe in K1.
    simpl length in K1. lia.
  - split; [|reflexivity]. unfold end_, free. cbn [or_zero].
    pose proof (free_loop_quiet (pool (self w)) w 0 true 0) as Hq.
    destruct (free_loop w (pool (self w)) 0 true 0) as [saved w1].
    cbn [snd] in Hq. simpl. apply (q_listeners _ _ Hq).
Qed.

Lemma isAvailable_spared w c :
  doomed (heap w c) = false ->
  pool (self (snd (isAvailable w c))) = pool (self w) /\
  trace (snd (isAvailable w c)) = trace w.
Proof.
  intros D. split; [now apply isAvailable_doomed|].
  revert D. unfold doomed, certain, isAvailable.
  destruct (writable (heap w c) && (writes (heap w c) =? 0))%bool; [reflexivity|].
  cbn [negb andb]. intros ->.
  repeat match goal with
         | |- context [if ?b then _ else _] => destruct b
         end; reflexivity.
Qed.

Lemma free_loop_farewell snapshot : forall w hard saved,
  pool (self w) = snapshot ->
  NoDup snapshot ->
  trace (snd (free_loop w snapshot 0 hard saved))
    = trace w ++ map (farewell w hard) snapshot /\
  fst (free_loop w snapshot 0 hard saved) = saved.
Proof.
  induction snapshot as [|c rest IH]; intros w hard saved Hp Hnd.
  - simpl. now rewrite app_nil_r.
  - apply NoDup_cons_iff in Hnd. destruct Hnd as [Hc Hnd].
    cbn [free_loop map]. unfold farewell at 1.
    destruct (doomed (heap w c)) eqn:D.
    + destruct (isAvailable_doomed w c) as [Dt _]. rewrite (Dt D).
      cbn [negb andb Z.eqb]. unfold remove.
      destruct (release_present w c false) as (w1 & E & Hp1 & _ & Ht1 & Hq1);
        [rewrite Hp; now left|].
      rewrite E. cbn [snd]. rewrite Hp, remove1_cons, Nat.eqb_refl in Hp1.
      rewrite release_absent by (rewrite Hp1; exact Hc). cbn [snd].
      destruct (IH w1 hard saved Hp1 Hnd) as [I1 I2].
      rewrite I1, I2, Ht1, <- app_assoc. split; [|reflexivity].
      simpl. do 2 f_equal. apply map_ext. intros x. unfold farewell.
      now rewrite (q_heap _ _ Hq1).
    + destruct (isAvailable_spared w c D) as [Sp St].
      pose proof (isAvailable_quiet w c) as Hq0.
      destruct (isAvailable w c) as [p w0]. cbn [snd] in Sp, St, Hq0.
      cbn [negb andb Z.eqb].
      destruct (release_present w0 c hard) as (w1 & E & Hp1 & _ & Ht1 & Hq1);
        [rewrite Sp, Hp; now left|].
      rewrite E. cbn [snd]. rewrite Sp, Hp, remove1_cons, Nat.eqb_refl in Hp1.
      destruct (IH w1 hard saved Hp1 Hnd) as [I1 I2].
      rewrite I1, I2, Ht1, St, <- app_assoc. split; [|reflexivity].
      simpl. do 2 f_equal. apply map_ext. intros x. unfold farewell.
      now rewrite (q_heap _ _ Hq1), (q_heap _ _ Hq0).
Qed.

(** X11.  On a pool that holds no connection twice, [free] without a number
    to keep, and so [end], asks the transport for each connection of the
    pool exactly once, in pool order: [end()] for a connection that scoring
    finds closed or destroyed, and otherwise [destroy()] or [end()] as the
    [hard] argument says ([end] always says [destroy()]); then it reports
    ['free'] with 0 saved and 0 left. *)
Theorem free_all_says_farewell w keep hard :
  or_zero keep = 0 ->
  NoDup (pool (self w)) ->
  pool (self (free w keep hard)) = [] /\
  trace (free w keep hard)
    = trace w ++ map (farewell w hard) (pool (self w)) ++ [Emitted_free 0 0] /\
  trace (end_ w hard)
    = trace w ++ map (farewell w true) (pool (self w)) ++ [Emitted_free 0 0].
Proof.
  intros Hk Hnd.
  assert (F : forall h,
             pool (self (free w (Some 0) h)) = [] /\
             trace (free w (Some 0) h)
               = trace w ++ map (farewell w h) (pool (self w)) ++ [Emitted_free 0 0]).
  { intros h. unfold free. cbn [or_zero].
    destruct (free_loop_farewell (pool (self w)) w h 0 eq_refl Hnd) as [I1 I2].
    pose proof (free_loop_drains (pool (self w)) w h 0 (fun x => Nat.le_refl _)) as Hd.
    destruct (free_loop w (pool (self w)) 0 h 0) as [saved w1].
    cbn [fst snd] in I1, I2, Hd. cbn [log self trace]. rewrite Hd, I1, I2.
    split; [reflexivity|]. now rewrite <- app_assoc. }
  assert (E : free w keep hard = free w (Some 0) hard)
    by (unfold free; rewrite Hk; reflexivity).
  rewrite E. destruct (F hard) as [F1 F2]. split; [exact F1|]. split; [exact F2|].
  unfold end_. cbn [set_self set_ticks trace]. apply (F true).
Qed.

Lemma free_all_says_farewell_witness :
  pool (self (free warm None false)) = [] /\
  trace (free warm None false)
    = trace warm ++ map (farewell warm false) (pool (self warm)) ++ [Emitted_free 0 0] /\
  trace (end_ warm false)
    = trace warm ++ map (farewell warm true) (pool (self warm)) ++ [Emitted_free 0 0].
Proof.
  apply (free_all_says_farewell warm None false).
  - reflexivity.
  - vm_compute. repeat constructor; simpl; intuition discriminate.
Defined.

(** ** The lifecycle monitor *)

Lemma filter_nothing {A} (f : A -> bool) l :
  (forall x, In x l -> f x = false) -> filter f l = [].
Proof.
  induction l as [|x l IH]; intros H; [reflexivity|].
  simpl. rewrite (H x) by now left. apply IH. intros y Hy. apply H. now right.
Qed.

Lemma filter_twice {A} (f g : A -> bool) l :
  filter g (filter f l) = filter (fun x => f x && g x)%bool l.
Proof.
  induction l as [|x l IH]; [reflexivity|].
  simpl. destruct (f x); simpl; [destruct (g x)|]; now rewrite IH.
Qed.

Lemma Listener_eqb_refl l : Listener_eqb l l = true.
Proof. destruct l; simpl; apply Nat.eqb_refl. Qed.

Lemma run_ending_world snapshot : forall w kept,
  listeners (run_ending w kept snapshot) = listeners w /\
  requests (run_ending w kept snapshot) = requests w /\
  fresh (run_ending w kept snapshot) = fresh w /\
  exists t, trace (run_ending w kept snapshot) = trace w ++ t.
Proof.
  induction snapshot as [|size rest IH]; intros w kept; cbn [run_ending].
  - simpl. repeat split. exists []. now rewrite app_nil_r.
  - destruct (size - 1 =? 0).
    + destruct (IH (log w Emitted_close) kept) as (H1 & H2 & H3 & t & H4).
      repeat split; trivial. exists (Emitted_close :: t).
      rewrite H4. cbn [log trace]. now rewrite <- app_assoc.
    + apply IH.
Qed.

(** A listener that runs detaches itself, and nothing else. *)
Lemma run_listener_world w c l arg w' :
  run_listener w c l arg = Some w' ->
  listeners w' = detach c [l] (listeners w) /\
  requests w' = requests w /\ fresh w' = fresh w.
Proof.
  assert (D : forall v, listeners (removeListener v c l) = detach c [l] (listeners v)).
  { intros v. unfold removeListener, detach. cbn [set_listeners listeners].
    apply filter_ext. intros x. cbn [existsb]. now rewrite Bool.orb_false_r. }
  destruct l as [k|k fn]; simpl; intros H.
  - pose proof (release_quiet (log w (Transport c m_destroySoon)) c false) as Hq.
    unfold remove in H.
    set (w2 := snd (release (log w (Transport c m_destroySoon)) c false)) in *.
    assert (L : listeners (removeListener w2 c (regenerate k))
                = detach c [regenerate k] (listeners w))
      by (rewrite D, (q_listeners _ _ Hq); reflexivity).
    destruct arg as [err|].
    + unfold emit_error in H. destruct (on_error _); [|discriminate].
      injection H as <-. cbn [log listeners requests fresh].
      split; [exact L|]. cbn [removeListener set_listeners requests fresh].
      rewrite (q_requests _ _ Hq), (q_fresh _ _ Hq). auto.
    + injection H as <-. unfold emit_connection_close.
      destruct (run_ending_world
                  (ending (self (log (removeListener w2 c (regenerate k))
                                   (Emitted_connection_close c))))
                  (log (removeListener w2 c (regenerate k)) (Emitted_connection_close c))
                  []) as (H1 & H2 & H3 & _).
      rewrite H1, H2, H3. cbn [log listeners requests fresh].
      split; [exact L|]. cbn [removeListener set_listeners requests fresh].
      rewrite (q_requests _ _ Hq), (q_fresh _ _ Hq). auto.
  - injection H as <-. cbn [log set_self listeners requests fresh].
    split; [apply D|]. auto.
Qed.

Lemma detach_detach c gone gone' l :
  detach c gone' (detach c gone l) = detach c (gone ++ gone') l.
Proof.
  unfold detach. rewrite filter_twice. apply filter_ext. intros x.
  rewrite existsb_app. destruct (Nat.eqb (fst x) c); simpl; [|reflexivity].
  now rewrite Bool.negb_orb.
Qed.

Lemma run_listeners_world snapshot : forall w c arg w',
  run_listeners w c snapshot arg = Some w' ->
  listeners w' = detach c snapshot (listeners w) /\
  requests w' = requests w /\ fresh w' = fresh w.
Proof.
  induction snapshot as [|l rest IH]; intros w c arg w' H; simpl in H.
  - injection H as <-. split; [|auto]. unfold detach. symmetry.
    rewrite <- (filter_ext (fun _ => true)).
    + induction (listeners w) as [|x ls IHl]; [reflexivity|]. simpl. now rewrite IHl.
    + intros x. simpl. now rewrite Bool.andb_false_r.
  - destruct (run_listener w c l arg) as [w1|] eqn:E; [|discriminate].
    destruct (run_listener_world _ _ _ _ _ E) as (L1 & R1 & F1).
    destruct (IH _ _ _ _ H) as (L2 & R2 & F2).
    rewrite L2, L1, detach_detach, R2, R1, F2, F1. auto.
Qed.

(** X12.  The listeners of a connection are one-shot.  After a signal has
    been delivered, the same signal of the same connection finds no listener
    of the pool any more; and after a timeout, an error, a close or an end,
    no later timeout, close or end of that connection is turned into another
    removal or another event. *)
Theorem signal_is_heard_once w c s arg w' :
  emit w c s arg = Some w' ->
  (forall arg', emit w' c s arg' = Some w') /\
  (s <> sig_connect ->
   forall s' arg', terminal s' = true -> emit w' c s' arg' = Some w').
Proof.
  unfold emit. intros H.
  destruct (run_listeners_world _ _ _ _ _ H) as (L & _ & _).
  assert (gone : forall x, In x (listeners w') ->
            Nat.eqb (fst x) c = true -> subscribed (snd x) s = false).
  { intros x Hx Hc. rewrite L in Hx. unfold detach in Hx.
    apply filter_In in Hx. destruct Hx as [Hx Hf]. cbv beta in Hf.
    unfold ref in *. rewrite Hc in Hf. cbn [andb] in Hf.
    destruct (subscribed (snd x) s) eqn:Hs; [|reflexivity].
    assert (Hin : In (snd x)
              (map snd (filter (fun x => Nat.eqb (fst x) c && subscribed (snd x) s)%bool
                          (listeners w)))).
    { apply in_map. apply filter_In. split; [exact Hx|]. now rewrite Hc, Hs. }
    assert (Hex : existsb (Listener_eqb (snd x))
              (map snd (filter (fun x => Nat.eqb (fst x) c && subscribed (snd x) s)%bool
                          (listeners w))) = true).
    { apply existsb_exists. exists (snd x). split; [exact Hin | apply Listener_eqb_refl]. }
    rewrite Hex in Hf. discriminate. }
  split.
  - intros arg'. rewrite filter_nothing; [reflexivity|].
    intros x Hx. destruct (Nat.eqb (fst x) c) eqn:Hc; [|reflexivity].
    simpl. now apply gone.
  - intros Hs s' arg' Ht. rewrite filter_nothing; [reflexivity|].
    intros x Hx. destruct (Nat.eqb (fst x) c) eqn:Hc; [|reflexivity].
    simpl. specialize (gone x Hx Hc).
    destruct x as [c0 [k|k fn]]; cbn [snd] in *.
    + destruct s; try discriminate gone. exfalso. now apply Hs.
    + destruct s'; try discriminate Ht; reflexivity.
Qed.

Lemma signal_is_heard_once_witness :
  (forall arg', emit (after warm [A_emit 2%nat sig_timeout None]) 2%nat sig_timeout arg'
                = Some (after warm [A_emit 2%nat sig_timeout None])) /\
  (sig_timeout <> sig_connect ->
   forall s' arg', terminal s' = true ->
     emit (after warm [A_emit 2%nat sig_timeout None]) 2%nat s' arg'
     = Some (after warm [A_emit 2%nat sig_timeout None])).
Proof.
  apply (signal_is_heard_once warm 2%nat sig_timeout None).
  vm_compute. reflexivity.
Defined.

Lemma regenerate_quietly w c k :
  exists w' t,
    run_listener w c (regenerate k) None = Some w' /\
    pool (self w') = remove1 c (pool (self w)) /\
    pending (self w') = pending (self w) /\
    trace w' = trace w ++ t /\
    In (Transport c m_destroySoon) t /\ In (Emitted_connection_close c) t.
Proof.
  cbn [run_listener]. unfold remove.
  pose proof (release_quiet (log w (Transport c m_destroySoon)) c false) as Hq.
  pose proof (release_pool (log w (Transport c m_destroySoon)) c false) as Hp.
  set (w2 := snd (release (log w (Transport c m_destroySoon)) c false)) in *.
  destruct (q_trace _ _ Hq) as (t1 & Ht1 & _).
  unfold emit_connection_close.
  set (w4 := log (removeListener w2 c (regenerate k)) (Emitted_connection_close c)).
  destruct (run_ending_spec (ending (self w4)) w4 []) as (_ & _ & _ & P1 & P2).
  destruct (run_ending_world (ending (self w4)) w4 []) as (_ & _ & _ & t2 & T2).
  eexists. exists ([Transport c m_destroySoon] ++ t1 ++ [Emitted_connection_close c] ++ t2).
  split; [reflexivity|]. rewrite P1, P2, T2.
  cbn [w4 log removeListener set_listeners self trace].
  rewrite Hp, (q_pending _ _ Hq), Ht1. cbn [log self trace].
  repeat split.
  - now rewrite <- !app_assoc.
  - now left.
  - apply in_app_iff. right. apply in_app_iff. right. now left.
Qed.

Lemma regenerates_run snapshot : forall w c,
  forallb is_regenerate snapshot = true ->
  exists w' t,
    run_listeners w c snapshot None = Some w' /\
    pending (self w') = pending (self w) /\
    trace w' = trace w ++ t /\
    (forall x,
        count_occ Nat.eq_dec (pool (self w')) x =
        if Nat.eqb x c then (count_occ Nat.eq_dec (pool (self w)) x - length snapshot)%nat
        else count_occ Nat.eq_dec (pool (self w)) x) /\
    (snapshot <> [] ->
     In (Transport c m_destroySoon) t /\ In (Emitted_connection_close c) t).
Proof.
  induction snapshot as [|l rest IH]; intros w c Hr.
  - exists w, []. simpl. rewrite app_nil_r. repeat split; trivial; try congruence.
    intros x. destruct (Nat.eqb x c); lia.
  - simpl in Hr. apply andb_prop in Hr. destruct Hr as [Hl Hr].
    destruct l as [k|]; [|discriminate].
    destruct (regenerate_quietly w c k) as (w1 & t1 & E1 & P1 & N1 & T1 & D1 & C1).
    destruct (IH w1 c Hr) as (w' & t & E & N & T & P & _).
    exists w', (t1 ++ t). cbn [run_listeners]. rewrite E1.
    split; [exact E|]. split; [congruence|].
    split; [rewrite T, T1; now rewrite app_assoc|]. split.
    + intros x. rewrite P, P1, remove1_count. simpl length.
      destruct (Nat.eqb x c); lia.
    + intros _. split; apply in_app_iff; now left.
Qed.

(** X13.  A connection that the pool monitors and that times out, closes or
    ends (without an error) never makes the pool throw; it is asked to
    [destroySoon], it is gone from a pool that held it once, the other
    connections stay, ['connection:close'] is emitted for it, and [pending]
    is not touched, also when the connection was still being created. *)
Theorem dying_connection_leaves_the_pool w c k s :
  In (c, regenerate k) (listeners w) ->
  terminal s = true ->
  NoDup (pool (self w)) ->
  exists w' t,
    emit w c s None = Some w' /\
    ~ In c (pool (self w')) /\
    (forall x, x <> c ->
       count_occ Nat.eq_dec (pool (self w')) x = count_occ Nat.eq_dec (pool (self w)) x) /\
    pending (self w') = pending (self w) /\
    trace w' = trace w ++ t /\
    In (Transport c m_destroySoon) t /\ In (Emitted_connection_close c) t.
Proof.
  intros Hin Hs Hnd. unfold emit.
  set (snapshot := map snd (filter (fun x => Nat.eqb (fst x) c && subscribed (snd x) s)%bool
                              (listeners w))).
  assert (Hreg : forallb is_regenerate snapshot = true).
  { apply forallb_forall. intros l Hl. apply in_map_iff in Hl.
    destruct Hl as ((c', l') & <- & Hl). apply filter_In in Hl.
    destruct Hl as [_ Hl]. apply andb_prop in Hl. destruct Hl as [_ Hl].
    cbn [snd] in *. destruct l', s; trivial; discriminate. }
  assert (Hne : snapshot <> []).
  { assert (In (regenerate k) snapshot).
    { unfold snapshot. apply (in_map snd _ (c, regenerate k)). apply filter_In.
      split; [exact Hin|]. cbn [fst snd]. rewrite Nat.eqb_refl.
      destruct s; trivial; discriminate. }
    intros E. rewrite E in H. contradiction. }
  destruct (regenerates_run snapshot w c Hreg) as (w' & t & E & N & T & P & D).
  destruct (D Hne) as [D1 D2].
  exists w', t. split; [exact E|]. split; [|split; [|auto]].
  - apply (count_occ_not_In Nat.eq_dec). rewrite P, Nat.eqb_refl.
    rewrite (NoDup_count_occ Nat.eq_dec) in Hnd. specialize (Hnd c).
    destruct snapshot; [congruence|]. simpl length. lia.
  - intros x Hx. rewrite P. destruct (Nat.eqb_spec x c); [congruence | reflexivity].
Qed.

Lemma dying_connection_leaves_the_pool_witness :
  exists w' t,
    emit warm 2%nat sig_close None = Some w' /\
    ~ In 2%nat (pool (self w')) /\
    (forall x, x <> 2%nat ->
       count_occ Nat.eq_dec (pool (self w')) x
       = count_occ Nat.eq_dec (pool (self warm)) x) /\
    pending (self w') = pending (self warm) /\
    trace w' = trace warm ++ t /\
    In (Transport 2%nat m_destroySoon) t /\ In (Emitted_connection_close 2%nat) t.
Proof.
  apply (dying_connection_leaves_the_pool warm 2%nat 3%nat sig_close).
  - vm_compute. auto 10.
  - reflexivity.
  - vm_compute. repeat constructor; simpl; intuition discriminate.
Defined.

(** ** The pending connections *)

Lemma either_ids_app l m : either_ids (l ++ m) = either_ids l ++ either_ids m.
Proof.
  induction l as [|x l IH]; [reflexivity|].
  destruct x; simpl; now rewrite IH.
Qed.

Lemma eithers_app l m : eithers (l ++ m) = eithers l ++ eithers m.
Proof. unfold eithers. now rewrite map_app, either_ids_app. Qed.

Lemma eithers_In c k fn l : In (c, either k fn) l -> In k (eithers l).
Proof.
  unfold eithers. induction l as [|[c0 l0] l IH]; [trivial|].
  intros [H|H].
  - injection H as -> ->. now left.
  - destruct l0; simpl; [|right]; now apply IH.
Qed.

Lemma eithers_filter_In (f : ref * Listener -> bool) k l :
  In k (eithers (filter f l)) -> In k (eithers l).
Proof.
  unfold eithers. induction l as [|[c0 l0] l IH]; [trivial|].
  simpl. destruct (f (c0, l0)); simpl; destruct l0; simpl; intuition.
Qed.

Lemma eithers_filter_NoDup (f : ref * Listener -> bool) l :
  NoDup (eithers l) -> NoDup (eithers (filter f l)).
Proof.
  induction l as [|[c0 l0] l IH]; [trivial|].
  unfold eithers in *. simpl. destruct l0 as [j|j fn]; simpl; intros H.
  - destruct (f (c0, regenerate j)); simpl; now apply IH.
  - apply NoDup_cons_iff in H. destruct H as [Hj H].
    destruct (f (c0, either j fn)); simpl; [|now apply IH].
    constructor; [|now apply IH]. intros Hin. apply Hj.
    now apply (eithers_filter_In f).
Qed.

Lemma eithers_filter_keep (f : ref * Listener -> bool) l :
  (forall c0 k fn, f (c0, either k fn) = true) ->
  eithers (filter f l) = eithers l.
Proof.
  intros Hf. unfold eithers. induction l as [|[c0 l0] l IH]; [reflexivity|].
  cbn [filter]. destruct l0 as [j|j fn].
  - destruct (f (c0, regenerate j)); cbn [map snd either_ids]; exact IH.
  - rewrite Hf. cbn [map snd either_ids]. now rewrite IH.
Qed.

Lemma detach_regenerate c k l : eithers (detach c [regenerate k] l) = eithers l.
Proof.
  unfold detach. apply eithers_filter_keep. intros c0 j fn.
  cbn [fst snd existsb Listener_eqb]. now rewrite Bool.andb_false_r.
Qed.

Lemma detach_cons c gone c0 l0 l :
  detach c gone ((c0, l0) :: l) =
  if negb (Nat.eqb c0 c && existsb (Listener_eqb l0) gone)
  then (c0, l0) :: detach c gone l
  else detach c gone l.
Proof. reflexivity. Qed.

Lemma eithers_regenerate c0 j l : eithers ((c0, regenerate j) :: l) = eithers l.
Proof. reflexivity. Qed.

Lemma eithers_either c0 j f l : eithers ((c0, either j f) :: l) = j :: eithers l.
Proof. reflexivity. Qed.

Lemma detach_absent c k fn l :
  ~ In k (eithers l) -> eithers (detach c [either k fn] l) = eithers l.
Proof.
  induction l as [|[c0 l0] l IH]; [reflexivity|].
  rewrite detach_cons. destruct l0 as [j|j f];
    cbn [existsb Listener_eqb]; rewrite Bool.orb_false_r.
  - rewrite Bool.andb_false_r. cbn [negb]. rewrite !eithers_regenerate. exact IH.
  - rewrite eithers_either. intros H.
    destruct (Nat.eqb_spec j k) as [->|Hj]; [exfalso; apply H; now left|].
    rewrite Bool.andb_false_r. cbn [negb]. rewrite eithers_either. f_equal.
    apply IH. intros Hin. apply H. now right.
Qed.

(** The listener [either k] that runs is attached exactly once. *)
Lemma detach_either c k fn l :
  NoDup (eithers l) ->
  In (c, either k fn) l ->
  exists before rest,
    eithers l = before ++ k :: rest /\
    eithers (detach c [either k fn] l) = before ++ rest.
Proof.
  induction l as [|[c0 l0] l IH]; intros Hnd Hin; [contradiction|].
  rewrite detach_cons. destruct l0 as [j|j f];
    cbn [existsb Listener_eqb]; rewrite Bool.orb_false_r.
  - rewrite eithers_regenerate in *.
    destruct Hin as [Hin|Hin]; [discriminate|].
    destruct (IH Hnd Hin) as (b & r & E1 & E2). exists b, r.
    split; [exact E1|]. rewrite Bool.andb_false_r. cbn [negb].
    rewrite eithers_regenerate. exact E2.
  - rewrite eithers_either in *.
    apply NoDup_cons_iff in Hnd. destruct Hnd as [Hj Hnd].
    destruct (Nat.eqb_spec j k) as [->|Hjk].
    + destruct Hin as [Hin|Hin]; [|exfalso; apply Hj; now apply eithers_In in Hin].
      injection Hin as -> ->. exists [], (eithers l). split; [reflexivity|].
      rewrite !Nat.eqb_refl. cbn [andb negb app].
      apply (detach_absent c k fn l Hj).
    + destruct Hin as [Hin|Hin]; [congruence|].
      destruct (IH Hnd Hin) as (b & r & E1 & E2). exists (j :: b), r.
      split; [simpl; now rewrite E1|].
      rewrite Bool.andb_false_r. cbn [negb]. rewrite eithers_either, E2. reflexivity.
Qed.

Lemma detach_keeps c gone l c' k' fn' :
  In (c', either k' fn') l ->
  ~ In k' (either_ids gone) ->
  In (c', either k' fn') (detach c gone l).
Proof.
  intros Hin Hk. unfold detach. apply filter_In. split; [exact Hin|].
  cbn [fst snd]. replace (existsb (Listener_eqb (either k' fn')) gone) with false;
    [now rewrite Bool.andb_false_r|].
  symmetry. apply Bool.not_true_is_false. intros H. apply existsb_exists in H.
  destruct H as (l0 & Hl0 & He). destruct l0 as [j|j f]; [discriminate|].
  simpl in He. apply Nat.eqb_eq in He. subst j. apply Hk.
  clear - Hl0. induction gone as [|g gone IH]; [contradiction|].
  destruct Hl0 as [->|H]; [now left|]. destruct g; simpl; [|right]; now apply IH.
Qed.

Lemma run_listener_pending w c l arg w' :
  run_listener w c l arg = Some w' ->
  pending (self w') = pending (self w) - (if is_regenerate l then 0 else 1).
Proof.
  destruct l as [k|k fn]; simpl; intros H.
  - pose proof (release_quiet (log w (Transport c m_destroySoon)) c false) as Hq.
    unfold remove in H. destruct arg as [err|].
    + unfold emit_error in H. destruct (on_error _); [|discriminate].
      injection H as <-. simpl. rewrite (q_pending _ _ Hq). simpl. lia.
    + injection H as <-.
      destruct (emit_connection_close_self
                  (removeListener
                     (snd (release (log w (Transport c m_destroySoon)) c false))
                     c (regenerate k)) c) as (_ & _ & ->).
      simpl. rewrite (q_pending _ _ Hq). simpl. lia.
  - injection H as <-. reflexivity.
Qed.

Lemma run_listener_settled w c l arg w' :
  settled w ->
  (forall k fn, l = either k fn -> In (c, either k fn) (listeners w)) ->
  run_listener w c l arg = Some w' ->
  settled w' /\
  (forall x, In x (eithers (listeners w')) -> In x (eithers (listeners w))).
Proof.
  intros [S1 S2 S3 S4 S5 S6] Hl H.
  destruct (run_listener_world _ _ _ _ _ H) as (L & R & F).
  pose proof (run_listener_pending _ _ _ _ _ H) as P.
  destruct l as [k|k fn]; cbn [is_regenerate] in P.
  - assert (E : eithers (listeners w') = eithers (listeners w))
      by (rewrite L; apply detach_regenerate).
    split; [|now rewrite E]. split; rewrite ?E, ?R, ?F; trivial. lia.
  - destruct (detach_either c k fn (listeners w) S1 (Hl k fn eq_refl))
      as (b & r & E1 & E2).
    rewrite <- L in E2.
    assert (Sub : forall x, In x (eithers (listeners w')) -> In x (eithers (listeners w))).
    { intros x. rewrite E1, E2, !in_app_iff. simpl. tauto. }
    split; [|exact Sub]. split; rewrite ?R, ?F; auto.
    + rewrite E2. rewrite E1 in S1. now apply NoDup_remove_1 in S1.
    + rewrite P, S6, E1, E2, !length_app. simpl. lia.
Qed.

Lemma run_listeners_settled snapshot : forall w c arg w',
  settled w ->
  NoDup (either_ids snapshot) ->
  (forall k fn, In (either k fn) snapshot -> In (c, either k fn) (listeners w)) ->
  run_listeners w c snapshot arg = Some w' ->
  settled w'.
Proof.
  induction snapshot as [|l rest IH]; intros w c arg w' S Hnd Hin H; simpl in H.
  - now injection H as <-.
  - destruct (run_listener w c l arg) as [w1|] eqn:E; [|discriminate].
    destruct (run_listener_settled w c l arg w1 S) as [S1 _]; trivial.
    { intros k fn ->. apply Hin. now left. }
    destruct (run_listener_world _ _ _ _ _ E) as (L & _ & _).
    apply (IH w1 c arg w' S1); trivial.
    + destruct l; simpl in Hnd; [exact Hnd | now apply NoDup_cons_iff in Hnd].
    + intros k fn Hk. rewrite L. apply detach_keeps; [apply Hin; now right|].
      destruct l as [j|j f]; simpl; [tauto|].
      simpl in Hnd. apply NoDup_cons_iff in Hnd. destruct Hnd as [Hj _].
      intros [->|[]]. apply Hj. clear - Hk.
      induction rest as [|g rest IHr]; [contradiction|].
      destruct Hk as [->|Hk]; [now left|]. destruct g; simpl; [|right]; now apply IHr.
Qed.

Lemma emit_settled w c s arg w' : settled w -> emit w c s arg = Some w' -> settled w'.
Proof.
  unfold emit. intros S H.
  apply (run_listeners_settled _ _ _ _ _ S) in H; trivial.
  - apply (eithers_filter_NoDup _ (listeners w)). apply (s_listeners _ S).
  - intros k fn Hk. apply in_map_iff in Hk. destruct Hk as ((c0, l0) & E & Hk).
    cbn [snd] in E. subst l0. apply filter_In in Hk. destruct Hk as [Hk Hf].
    cbn [fst] in Hf. apply andb_prop in Hf. destruct Hf as [Hc _].
    apply Nat.eqb_eq in Hc. now subst c0.
Qed.

Lemma NoDup_snoc (l : list nat) k : NoDup l -> ~ In k l -> NoDup (l ++ [k]).
Proof.
  induction l as [|x l IH]; intros Hnd Hk.
  - simpl. constructor; [tauto | constructor].
  - apply NoDup_cons_iff in Hnd. destruct Hnd as [Hx Hnd]. simpl.
    constructor.
    + rewrite in_app_iff. simpl. intros [H|[H|[]]]; [tauto|].
      apply Hk. now left.
    + apply IH; [exact Hnd|]. intros H. apply Hk. now right.
Qed.

Lemma settled_frame w w' :
  settled w ->
  listeners w' = listeners w ->
  NoDup (map fst (requests w')) ->
  (forall k, In k (map fst (requests w')) -> In k (map fst (requests w))) ->
  (fresh w <= fresh w')%nat ->
  pending (self w') = pending (self w) ->
  settled w'.
Proof.
  intros [S1 S2 S3 S4 S5 S6] L R1 R2 F P.
  split; rewrite ?L; trivial.
  - intros k Hk Hr. apply (S3 k Hk). now apply R2.
  - intros k Hk. specialize (S4 k Hk). lia.
  - intros k Hk. specialize (S5 k (R2 k Hk)). lia.
  - congruence.
Qed.

Lemma settled_same w w' :
  settled w ->
  listeners w' = listeners w -> requests w' = requests w ->
  fresh w' = fresh w -> pending (self w') = pending (self w) ->
  settled w'.
Proof.
  intros St L R F P.
  apply (settled_frame w);
    [exact St | exact L | rewrite R; apply (s_requests _ St)
    | intros k; now rewrite R | lia | exact P].
Qed.

Lemma settled_await w w' c j k fn :
  settled w ->
  listeners w' = listeners w ++ [(c, regenerate j); (c, either k fn)] ->
  NoDup (map fst (requests w')) ->
  (forall x, In x (map fst (requests w')) -> In x (map fst (requests w))) ->
  ~ In k (map fst (requests w')) ->
  ~ In k (eithers (listeners w)) ->
  (k < fresh w')%nat ->
  (fresh w <= fresh w')%nat ->
  pending (self w') = pending (self w) + 1 ->
  settled w'.
Proof.
  intros [S1 S2 S3 S4 S5 S6] L R1 R2 Kr Ke Kf F P.
  assert (E : eithers (listeners w') = eithers (listeners w) ++ [k])
    by (rewrite L, eithers_app; reflexivity).
  split; rewrite ?E; trivial.
  - now apply NoDup_snoc.
  - intros x Hx Hr. apply in_app_iff in Hx. destruct Hx as [Hx|[<-|[]]].
    + apply (S3 x Hx). now apply R2.
    + now apply Kr.
  - intros x Hx. apply in_app_iff in Hx. destruct Hx as [Hx|[<-|[]]]; [|exact Kf].
    specialize (S4 x Hx). lia.
  - intros x Hx. specialize (S5 x (R2 x Hx)). lia.
  - rewrite P, S6, length_app. simpl. lia.
Qed.

Lemma settled_request w w' k fn :
  settled w ->
  listeners w' = listeners w ->
  requests w' = requests w ++ [(k, fn)] ->
  (fresh w <= k)%nat ->
  (k < fresh w')%nat ->
  pending (self w') = pending (self w) ->
  settled w'.
Proof.
  intros [S1 S2 S3 S4 S5 S6] L R Kf F P.
  split; rewrite ?L, ?R, ?map_app; trivial.
  - apply NoDup_snoc; [exact S2|]. intros H. specialize (S5 k H). lia.
  - intros x Hx Hr. apply in_app_iff in Hr. destruct Hr as [Hr|[<-|[]]].
    + now apply (S3 x Hx).
    + specialize (S4 _ Hx). simpl in S4. lia.
  - intros x Hx. specialize (S4 x Hx). lia.
  - intros x Hx. apply in_app_iff in Hx. destruct Hx as [Hx|[<-|[]]]; [|exact F].
    specialize (S5 x Hx). lia.
  - congruence.
Qed.

Lemma quiet_settled w w' : settled w -> quiet w w' -> settled w'.
Proof.
  intros S Hq. apply (settled_frame w); trivial.
  - apply (q_listeners _ _ Hq).
  - rewrite (q_requests _ _ Hq). apply (s_requests _ S).
  - now rewrite (q_requests _ _ Hq).
  - rewrite (q_fresh _ _ Hq). lia.
  - apply (q_pending _ _ Hq).
Qed.

Lemma allocate_settled w fn made w' :
  settled w -> allocate w fn made = Some w' -> settled w'.
Proof.
  intros St Ha. destruct (generator (self w)) as [builder|] eqn:E.
  - destruct (allocate_cases w fn made builder E) as (w1 & Hq & H).
    pose proof (q_pending _ _ Hq) as Hp. pose proof (q_requests _ _ Hq) as Hr.
    pose proof (q_listeners _ _ Hq) as Hl. pose proof (q_fresh _ _ Hq) as Hf.
    cbn [attempt self pending requests listeners fresh
           set_self set_fresh set_allocations] in Hp, Hr, Hl, Hf.
    assert (plain : forall w2,
               listeners w2 = listeners w1 -> requests w2 = requests w1 ->
               fresh w2 = fresh w1 -> pending (self w2) = pending (self w1) ->
               settled w2).
    { intros w2 L R F P.
      apply (settled_frame w);
        [exact St | congruence | rewrite R, Hr; apply (s_requests _ St)
        | intros k; now rewrite R, Hr | lia | congruence]. }
    destruct H as [(c & _ & H)|(ps & _ & [(_ & [(_ & [(c & _ & H)|(_ & H)])
                                                   |(_ & H)])|(_ & H)])];
      rewrite H in Ha; injection Ha as <-.
    + now apply plain.
    + apply (settled_await w _ c (S (fresh w)) (fresh w) fn); trivial.
      * cbn [await on_either listen log listeners set_self set_pending set_listeners
               set_fresh fresh]. rewrite Hl, Hf, <- app_assoc. reflexivity.
      * cbn [await on_either listen log requests set_self set_pending set_listeners
               set_fresh]. rewrite Hr. apply (s_requests _ St).
      * cbn [await on_either listen log requests set_self set_pending set_listeners
               set_fresh]. now rewrite Hr.
      * cbn [await on_either listen log requests set_self set_pending set_listeners
               set_fresh]. rewrite Hr. intros Hk. apply (s_old_requests _ St) in Hk. lia.
      * intros Hk. apply (s_old_listeners _ St) in Hk. lia.
      * cbn [await on_either listen log fresh set_self set_pending set_listeners
               set_fresh]. lia.
      * cbn [await on_either listen log fresh set_self set_pending set_listeners
               set_fresh]. lia.
      * cbn [await on_either listen log self pending set_self set_pending
               set_listeners set_fresh]. lia.
    + destruct (semi_valid_log (log w1 Generator_called) fn ps) as (e & -> & _).
      now apply plain.
    + apply (settled_request w _ (fresh w) fn);
        [exact St | exact Hl | cbn [log set_requests requests]; now rewrite Hr
        | lia | cbn [log set_requests fresh]; lia | exact Hp].
    + destruct (semi_valid_log w1 fn ps) as (e & -> & _). now apply plain.
  - unfold allocate in Ha. rewrite E in Ha. injection Ha as <-.
    now apply (settled_same w).
Qed.

Lemma lookup_In k l fn : lookup k l = Some fn -> In k (map fst l).
Proof.
  induction l as [|[k' f] l IH]; [discriminate|].
  simpl. destruct (Nat.eqb_spec k k') as [->|Hk]; [now left | right; now apply IH].
Qed.

Lemma requests_filter (f : nat * Callback -> bool) l :
  NoDup (map fst l) ->
  NoDup (map fst (filter f l)) /\
  forall k, In k (map fst (filter f l)) -> In k (map fst l).
Proof.
  induction l as [|x l IH]; intros H; [split; trivial|].
  simpl in H. apply NoDup_cons_iff in H. destruct H as [Hx H].
  destruct (IH H) as [I1 I2]. simpl. destruct (f x); simpl.
  - split; [constructor; [intros Hin; apply Hx; now apply I2 | exact I1]|].
    intros k [Hk|Hk]; [now left | right; now apply I2].
  - split; [exact I1|]. intros k Hk. right. now apply I2.
Qed.

Lemma step_settled w a w' : settled w -> step w a = Some w' -> settled w'.
Proof.
  intros St. pose proof (s_requests _ St) as Sr.
  destruct a; simpl; intros H.
  - injection H as <-. now apply (settled_same w).
  - injection H as <-. now apply (settled_same w).
  - now apply (allocate_settled w fn made).
  - destruct (lookup k (requests w)) as [fn|] eqn:Hk; [|discriminate].
    injection H as <-. apply lookup_In in Hk.
    destruct (requests_filter (fun x => negb (Nat.eqb (fst x) k)) (requests w) Sr)
      as [F1 F2].
    assert (Kr : ~ In k (map fst (filter (fun x => negb (Nat.eqb (fst x) k)) (requests w)))).
    { intros Hin. apply in_map_iff in Hin. destruct Hin as (x & <- & Hx).
      apply filter_In in Hx. destruct Hx as [_ Hx]. now rewrite Nat.eqb_refl in Hx. }
    unfold generate. destruct err as [e|]; [|destruct made as [c|]].
    + apply (settled_frame w);
        [exact St | reflexivity | exact F1 | exact F2 | cbn; lia | reflexivity].
    + apply (settled_await w _ c (fresh w) k fn);
        [exact St
        | cbn [await on_either listen listeners set_self set_pending set_listeners
                 set_fresh set_requests fresh]; now rewrite <- app_assoc
        | exact F1 | exact F2 | exact Kr
        | intros Hin; now apply (s_apart _ St k)
        | cbn; apply (s_old_requests _ St) in Hk; lia | cbn; lia | reflexivity].
    + apply (settled_frame w);
        [exact St | reflexivity | exact F1 | exact F2 | cbn; lia | reflexivity].
  - now apply (emit_settled w c s arg).
  - injection H as <-. apply (quiet_settled w); [exact St | apply release_quiet].
  - injection H as <-. unfold free.
    pose proof (free_loop_quiet (pool (self w)) w (or_zero keep) hard 0) as Hq.
    destruct (free_loop w (pool (self w)) (or_zero keep) hard 0) as [saved w1].
    cbn [snd] in Hq. apply (quiet_settled w) in Hq; [|exact St].
    now apply (settled_same w1).
  - injection H as <-. unfold end_, free. cbn [or_zero].
    pose proof (free_loop_quiet (pool (self w)) w 0 true 0) as Hq.
    destruct (free_loop w (pool (self w)) 0 true 0) as [saved w1].
    cbn [snd] in Hq. apply (quiet_settled w) in Hq; [|exact St].
    now apply (settled_same w1).
  - destruct (ticks w); [discriminate|]. injection H as <-.
    now apply (settled_same w).
  - injection H as <-. now apply (settled_same w).
Qed.

Lemma run_settled actions : forall w w',
  settled w -> run w actions = Some w' -> settled w'.
Proof.
  induction actions as [|a actions IH]; intros w w' St H; simpl in H.
  - now injection H as <-.
  - destruct (step w a) as [w1|] eqn:E; [|discriminate].
    apply (IH w1 w'); [|exact H]. now apply (step_settled w a).
Qed.

(** X14.  In every world a new manager can reach, [pending] is exactly the
    number of [either] listeners attached to connections, one for each
    connection that was created and has answered neither [connect] nor
    [error]; in particular [pending] is never negative.  (A connection that
    timed out or closed before connecting is still counted.) *)
Theorem pending_counts_the_awaited limit builder heap draws actions w :
  run (boot limit builder heap draws) actions = Some w ->
  pending (self w) = Z.of_nat (length (eithers (listeners w))) /\
  0 <= pending (self w).
Proof.
  intros H.
  assert (St : settled w).
  { apply (run_settled actions (boot limit builder heap draws)); [|exact H].
    split; simpl; trivial; try constructor; try contradiction. }
  rewrite (s_pending _ St). split; [reflexivity | lia].
Qed.

Lemma pending_counts_the_awaited_witness :
  pending (self (after (boot (Some 5) (Some sync_factory) sockets (fun _ => 0))
                   [A_allocate 11%nat (Some 1%nat); A_allocate 12%nat (Some 2%nat);
                    A_emit 1%nat sig_connect None; A_emit 2%nat sig_timeout None]))
  = Z.of_nat (length (eithers (listeners
      (after (boot (Some 5) (Some sync_factory) sockets (fun _ => 0))
         [A_allocate 11%nat (Some 1%nat); A_allocate 12%nat (Some 2%nat);
          A_emit 1%nat sig_connect None; A_emit 2%nat sig_timeout None])))) /\
  0 <= pending (self (after (boot (Some 5) (Some sync_factory) sockets (fun _ => 0))
                   [A_allocate 11%nat (Some 1%nat); A_allocate 12%nat (Some 2%nat);
                    A_emit 1%nat sig_connect None; A_emit 2%nat sig_timeout None])).
Proof.
  apply (pending_counts_the_awaited (Some 5) (Some sync_factory) sockets (fun _ => 0)
           [A_allocate 11%nat (Some 1%nat); A_allocate 12%nat (Some 2%nat);
            A_emit 1%nat sig_connect None; A_emit 2%nat sig_timeout None]).
  vm_compute. reflexivity.
Defined.

Lemma boot_settled limit builder heap draws : settled (boot limit builder heap draws).
Proof.
  split; simpl; trivial; try constructor; try contradiction.
Qed.

Lemma lookup_last k fn l :
  ~ In k (map fst l) -> lookup k (l ++ [(k, fn)]) = Some fn.
Proof.
  induction l as [|[k' f] l IH]; intros H; simpl.
  - now rewrite Nat.eqb_refl.
  - destruct (Nat.eqb_spec k k') as [->|Hk]; [exfalso; apply H; now left|].
    apply IH. intros Hin. apply H. now right.
Qed.

Lemma lookup_filtered k l :
  lookup k (filter (fun x => negb (Nat.eqb (fst x) k)) l) = None.
Proof.
  induction l as [|[k' f] l IH]; [reflexivity|].
  simpl. destruct (Nat.eqb_spec k' k) as [->|Hk]; simpl; [exact IH|].
  destruct (Nat.eqb_spec k k'); [congruence | exact IH].
Qed.

(** X15.  The answer of a callback-style factory reaches the caller that
    asked.  In a world a new manager can reach, when [allocate] has left a
    call of the factory outstanding, the factory's answer to that call is
    accepted once: an error completes this allocation with that error, no
    error and no connection completes it with 'The #factory failed to
    generate a stream', in both cases with pool, [pending] and listeners
    untouched; a connection is counted as pending and awaited with this
    allocation's [either], and nothing is called yet. *)
Theorem factory_answer_reaches_the_caller
    limit builder heap draws actions w fn made w1 err answer :
  run (boot limit builder heap draws) actions = Some w ->
  allocate w fn made = Some w1 ->
  requests w1 = requests w ++ [(fresh w, fn)] ->
  exists w2,
    step w1 (A_generate (fresh w) err answer) = Some w2 /\
    lookup (fresh w) (requests w2) = None /\
    pool (self w2) = pool (self w1) /\
    match err, answer with
    | Some e, _ =>
        trace w2 = trace w1 ++ [Called fn (Some e) None] /\
        pending (self w2) = pending (self w1) /\ listeners w2 = listeners w1
    | None, None =>
        trace w2 = trace w1 ++ [Called fn (Some factory_failed) None] /\
        pending (self w2) = pending (self w1) /\ listeners w2 = listeners w1
    | None, Some c =>
        trace w2 = trace w1 /\
        pending (self w2) = pending (self w1) + 1 /\
        listeners w2 =
          listeners w1 ++ [(c, regenerate (fresh w1)); (c, either (fresh w) fn)]
    end.
Proof.
  intros Hrun Ha Hr.
  assert (St : settled w)
    by (apply (run_settled actions _ _ (boot_settled limit builder heap draws) Hrun)).
  assert (Hl : lookup (fresh w) (requests w1) = Some fn).
  { rewrite Hr. apply lookup_last. intros Hin.
    apply (s_old_requests _ St) in Hin. lia. }
  cbn [step]. rewrite Hl. eexists. split; [reflexivity|].
  unfold generate. destruct err as [e|]; [|destruct answer as [c|]];
    cbn [await on_either listen log set_requests set_self set_pending set_listeners
           set_fresh requests self pool pending listeners trace fresh];
    (split; [apply lookup_filtered|]); (split; [reflexivity|]); repeat split.
  now rewrite <- app_assoc.
Qed.

Lemma factory_answer_reaches_the_caller_witness :
  exists w2,
    step (after (boot (Some 1) (Some async_factory) sockets (fun _ => 0))
            [A_allocate 11%nat None])
         (A_generate (fresh (boot (Some 1) (Some async_factory) sockets (fun _ => 0)))
            (Some "EMFILE"%string) None) = Some w2 /\
    lookup (fresh (boot (Some 1) (Some async_factory) sockets (fun _ => 0)))
      (requests w2) = None /\
    pool (self w2)
      = pool (self (after (boot (Some 1) (Some async_factory) sockets (fun _ => 0))
                      [A_allocate 11%nat None])) /\
    (trace w2
       = trace (after (boot (Some 1) (Some async_factory) sockets (fun _ => 0))
                  [A_allocate 11%nat None])
         ++ [Called 11%nat (Some "EMFILE"%string) None] /\
     pending (self w2)
       = pending (self (after (boot (Some 1) (Some async_factory) sockets (fun _ => 0))
                          [A_allocate 11%nat None])) /\
     listeners w2
       = listeners (after (boot (Some 1) (Some async_factory) sockets (fun _ => 0))
                      [A_allocate 11%nat None])).
Proof.
  apply (factory_answer_reaches_the_caller (Some 1) (Some async_factory) sockets
           (fun _ => 0) [] _ 11%nat None _ (Some "EMFILE"%string) None).
  - reflexivity.
  - vm_compute. reflexivity.
  - vm_compute. reflexivity.
Defined.

(** X16.  A connection that [allocate] has just created, and that no earlier
    allocation is still waiting for, is delivered when it connects: the
    [connect] signal puts it at the end of the pool, takes it off the pending
    count, calls this allocation's callback with it and no error, and leaves
    it monitored by [regenerate] while [either] is detached. *)
Theorem created_connection_is_delivered w fn c w1 :
  allocate w fn (Some c) = Some w1 ->
  pending (self w1) = pending (self w) + 1 ->
  (forall k f, ~ In (c, either k f) (listeners w)) ->
  exists w2,
    emit w1 c sig_connect None = Some w2 /\
    pool (self w2) = pool (self w1) ++ [c] /\
    pending (self w2) = pending (self w) /\
    trace w2 = trace w1 ++ [Called fn None (Some c)] /\
    In (c, regenerate (S (fresh w))) (listeners w2) /\
    (forall k f, ~ In (c, either k f) (listeners w2)).
Proof.
  intros Ha Hp Hno. destruct (generator (self w)) as [builder|] eqn:E.
  - destruct (allocate_cases w fn (Some c) builder E) as (w0 & Hq & H).
    pose proof (q_pending _ _ Hq) as Qp. pose proof (q_listeners _ _ Hq) as Ql.
    pose proof (q_fresh _ _ Hq) as Qf.
    cbn [attempt self pending listeners fresh set_self set_fresh set_allocations]
      in Qp, Ql, Qf.
    destruct H as [(c' & _ & H)|(ps & _ & [(_ & [(_ & [(c' & Hm & H)|(Hm & _)])
                                                   |(_ & H)])|(_ & H)])];
      try discriminate Hm;
      rewrite H in Ha; injection Ha as <-;
      rewrite ?semi_valid_self in Hp; cbn in Hp; try lia.
    injection Hm as <-.
    assert (L : listeners (await (log w0 Generator_called) c (fresh w) fn)
                = listeners w ++ [(c, regenerate (S (fresh w))); (c, either (fresh w) fn)]).
    { cbn [await on_either listen log listeners set_self set_pending set_listeners
             set_fresh fresh]. rewrite Ql, Qf, <- app_assoc. reflexivity. }
    assert (P1 : pending (self (await (log w0 Generator_called) c (fresh w) fn))
                 = pending (self w) + 1).
    { cbn [await on_either listen log self pending set_self set_pending set_listeners
             set_fresh]. lia. }
    set (w1 := await (log w0 Generator_called) c (fresh w) fn) in *.
    assert (Snap : map snd (filter (fun x => Nat.eqb (fst x) c
                                             && subscribed (snd x) sig_connect)%bool
                              (listeners w1)) = [either (fresh w) fn]).
    { rewrite L, filter_app. rewrite filter_nothing.
      - cbn [filter fst snd subscribed app]. rewrite Nat.eqb_refl. reflexivity.
      - intros [c0 l0] Hx. cbn [fst snd].
        destruct (Nat.eqb_spec c0 c) as [->|]; [|reflexivity].
        destruct l0 as [j|j f]; [reflexivity|]. now apply Hno in Hx. }
    unfold emit. rewrite Snap. cbn [run_listeners run_listener].
    eexists. split; [reflexivity|].
    cbn [log set_self set_pool set_pending removeListener set_listeners
           self pool pending trace listeners].
    split; [reflexivity|]. split; [lia|]. split; [reflexivity|]. split.
    + rewrite L. apply filter_In. split.
      * apply in_app_iff. right. now left.
      * cbn [fst snd Listener_eqb]. now rewrite Bool.andb_false_r.
    + intros k f Hin. apply filter_In in Hin. destruct Hin as [Hin Ht].
      rewrite L in Hin. apply in_app_iff in Hin.
      destruct Hin as [Hin|[Hin|[Hin|[]]]]; [now apply Hno in Hin | discriminate|].
      injection Hin as <- <-. cbn [fst snd Listener_eqb] in Ht.
      rewrite !Nat.eqb_refl in Ht. discriminate.
  - unfold allocate in Ha. rewrite E in Ha. injection Ha as <-. cbn in Hp. lia.
Qed.

Lemma created_connection_is_delivered_witness :
  exists w2,
    emit (after roomy [A_allocate 21%nat (Some 8%nat)]) 8%nat sig_connect None = Some w2 /\
    pool (self w2) = pool (self (after roomy [A_allocate 21%nat (Some 8%nat)])) ++ [8%nat] /\
    pending (self w2) = pending (self roomy) /\
    trace w2 = trace (after roomy [A_allocate 21%nat (Some 8%nat)])
               ++ [Called 21%nat None (Some 8%nat)] /\
    In (8%nat, regenerate (S (fresh roomy))) (listeners w2) /\
    (forall k f, ~ In (8%nat, either k f) (listeners w2)).
Proof.
  apply (created_connection_is_delivered roomy 21%nat 8%nat).
  - vm_compute. reflexivity.
  - vm_compute. reflexivity.
  - intros k f. vm_compute. intuition discriminate.
Defined.

(** ** The limit *)

(** X17.  With a factory that answers at once (no answer of a callback-style
    factory among the actions), a manager built with a limit that is not
    negative never holds more connections than its limit: in every world it
    reaches, the pool and the pending connections together are within the
    limit, [pending] is not negative, and so the pool alone is within the
    limit. *)
Theorem pool_stays_within_limit size builder heap draws actions w :
  (forall n, size = Some n -> 0 <= n) ->
  forallb (fun a => negb (is_generate a)) actions = true ->
  run (boot size builder heap draws) actions = Some w ->
  Z.of_nat (length (pool (self w))) + pending (self w) <= limit (self w) /\
  0 <= pending (self w) /\
  Z.of_nat (length (pool (self w))) <= limit (self w).
Proof.
  intros Hl Hf H.
  assert (C : capacity w)
    by (apply (run_capacity _ _ _ Hf H); now apply boot_capacity).
  assert (St : settled w)
    by (apply (run_settled actions _ _ (boot_settled size builder heap draws) H)).
  pose proof (s_pending _ St) as P. unfold capacity in C.
  split; [exact C|]. split; lia.
Qed.

Lemma pool_stays_within_limit_witness :
  Z.of_nat (length (pool (self warm))) + pending (self warm) <= limit (self warm) /\
  0 <= pending (self warm) /\
  Z.of_nat (length (pool (self warm))) <= limit (self warm).
Proof.
  apply (pool_stays_within_limit None (Some sync_factory) sockets (fun _ => 0)
           [A_on_error;
            A_allocate 11%nat (Some 1%nat); A_allocate 12%nat (Some 2%nat);
            A_allocate 13%nat (Some 3%nat); A_allocate 14%nat (Some 4%nat);
            A_emit 1%nat sig_connect None; A_emit 2%nat sig_connect None;
            A_emit 3%nat sig_connect None; A_emit 4%nat sig_connect None] warm).
  - discriminate.
  - reflexivity.
  - vm_compute. reflexivity.
Defined.

(** X18.  [allocate] calls the generator at most once, and a call of
    [allocate] that has called the generator leaves the pool and the pending
    connections together within the limit, whatever the world was before. *)
Theorem factory_call_leaves_room w fn made w' :
  allocate w fn made = Some w' ->
  (generated (trace w') = generated (trace w) \/
   generated (trace w') = S (generated (trace w))) /\
  (generated (trace w') <> generated (trace w) -> capacity w').
Proof.
  intros Ha. destruct (generator (self w)) as [builder|] eqn:E.
  - destruct (allocate_cases w fn made builder E) as (w1 & Hq & H).
    pose proof (quiet_generated _ _ Hq) as G. cbn [attempt trace set_self set_fresh] in G.
    unfold capacity.
    destruct H as [(c & _ & H)|(ps & _ & [(Hlt & [(_ & [(c & _ & H)|(_ & H)])
                                                   |(_ & H)])|(_ & H)])];
      rewrite H in Ha; injection Ha as <-.
    + cbn [log trace]. rewrite generated_app, G. simpl. split; [left; lia | lia].
    + cbn [await on_either listen log trace self pool pending limit
             set_self set_pending set_listeners set_fresh].
      rewrite generated_app, G. simpl. split; [right; lia | lia].
    + rewrite semi_valid_self.
      destruct (semi_valid_log (log w1 Generator_called) fn ps) as (e & -> & He).
      cbn [log trace self]. rewrite !generated_app, G.
      destruct e; try discriminate; simpl; (split; [right; lia | lia]).
    + cbn [log set_requests trace self]. rewrite generated_app, G. simpl.
      split; [right; lia | lia].
    + destruct (semi_valid_log w1 fn ps) as (e & -> & He).
      cbn [log trace]. rewrite generated_app, G.
      destruct e; try discriminate; simpl; (split; [left; lia | lia]).
  - unfold allocate in Ha. rewrite E in Ha. injection Ha as <-.
    cbn [log trace]. rewrite generated_app. simpl. split; [left; lia | lia].
Qed.

Lemma factory_call_leaves_room_witness :
  (generated (trace (after roomy [A_allocate 21%nat (Some 8%nat)]))
     = generated (trace roomy) \/
   generated (trace (after roomy [A_allocate 21%nat (Some 8%nat)]))
     = S (generated (trace roomy))) /\
  (generated (trace (after roomy [A_allocate 21%nat (Some 8%nat)]))
     <> generated (trace roomy) ->
   capacity (after roomy [A_allocate 21%nat (Some 8%nat)])).
Proof.
  apply (factory_call_leaves_room roomy 21%nat (Some 8%nat)).
  vm_compute. reflexivity.
Defined.
